(** * extract_audio.py: name extraction, file naming and transcription cleanup

    A shallow embedding of [src/extract_audio.py].  Python strings are
    lists of characters; a character is a code point of the Latin-1 block
    (U+0000 to U+00FF), carried by Rocq's 8-bit [ascii].  The character
    classes below are the ones CPython uses for [str.isspace], [str.split],
    [str.isupper], [str.lower] and for the [re] escapes [\s], [\w] and [\b]
    on these code points. *)

From Stdlib Require Import Ascii String NArith Lia Bool.
From stdpp Require Import gmap strings list.

Local Open Scope string_scope.
Local Open Scope list_scope.
Local Open Scope nat_scope.

(** ** Characters *)

Abbreviation text := (list ascii).

Definition str (s : string) : text := list_ascii_of_string s.

Definition code (c : ascii) : N := N_of_ascii c.

Definition between (lo hi : N) (c : ascii) : bool :=
  ((lo <=? code c) && (code c <=? hi))%N.

(** [str.isspace], also the separator class of [str.split()] and the
    class [\s] of [re] on [str] patterns. *)
Definition isspace (c : ascii) : bool :=
  between 9 13 c || between 28 32 c || (code c =? 133)%N || (code c =? 160)%N.

(** The class [\w] of [re] on [str] patterns: alphanumeric or underscore. *)
Definition is_word (c : ascii) : bool :=
  between 48 57 c || between 65 90 c || (code c =? 95)%N || between 97 122 c
  || (code c =? 170)%N || between 178 179 c || (code c =? 181)%N
  || between 185 186 c || between 188 190 c || between 192 214 c
  || between 216 246 c || between 248 255 c.

(** [str.isupper] on a one-character string. *)
Definition isupper (c : ascii) : bool :=
  between 65 90 c || between 192 214 c || between 216 222 c.

(** Lowercase letters whose uppercase form is again a Latin-1 code point. *)
Definition has_upper (c : ascii) : bool :=
  between 97 122 c || between 224 246 c || between 248 254 c.

Definition lower_char (c : ascii) : ascii :=
  if isupper c then ascii_of_N (code c + 32) else c.

Definition upper_char (c : ascii) : ascii :=
  if has_upper c then ascii_of_N (code c - 32) else c.

(** [str.lower]. *)
Definition lower (s : text) : text := map lower_char s.

Definition is_letter (c : ascii) : bool := between 65 90 c || between 97 122 c.

(** A string of ASCII letters. *)
Definition letters (w : list ascii) : Prop := Forall (fun c => is_letter c = true) w.

Definition text_eqb (a b : text) : bool := bool_decide (a = b).

(** Truthiness of a Python string. *)
Definition nonempty (s : text) : bool :=
  match s with [] => false | _ :: _ => true end.

(** ** String operations *)

(** [s.split()]: maximal runs of non-whitespace characters. [cur] holds the
    current run, reversed. *)
Fixpoint split_from (cur : text) (s : text) : list text :=
  match s with
  | [] => if nonempty cur then [rev cur] else []
  | c :: s' =>
      if isspace c
      then (if nonempty cur then rev cur :: split_from [] s' else split_from [] s')
      else split_from (c :: cur) s'
  end.

Definition split (s : text) : list text := split_from [] s.

(** [re.sub(r'[^\w]', '', s)]. *)
Definition strip_nonword (s : text) : text := filter (fun c => is_word c = true) s.

(** [s[i:j]]. *)
Definition slice (i j : nat) (s : text) : text := take (j - i) (drop i s).

(** ** Regular expressions

    The five patterns of [find_first_name] are sequences of literals,
    classes, greedy one-or-more repetitions of a class, one capture group
    and the assertion [\b].  They are run by a backtracking matcher that
    tries the alternatives in the order [re] does, so the match found is
    the one [re.search] reports. *)

Inductive charset : Type :=
| Range (lo hi : ascii)      (* [lo-hi] *)
| Whitespace.                (* \s *)

Inductive item : Type :=
| Lit (c : ascii)            (* a literal character *)
| OneOf (cs : charset)       (* one character of a class *)
| Plus (cs : charset)        (* cs+, greedy *)
| GroupOpen                  (* ( *)
| GroupClose                 (* ) *)
| Boundary.                  (* \b *)

Definition regex := list item.

Definition in_range (lo hi c : ascii) : bool := between (code lo) (code hi) c.

(** Membership of a character in a class; [ic] is [re.IGNORECASE]. *)
Definition cs_match (ic : bool) (cs : charset) (c : ascii) : bool :=
  match cs with
  | Range lo hi =>
      in_range lo hi c
      || (ic && (in_range lo hi (lower_char c) || in_range lo hi (upper_char c)))
  | Whitespace => isspace c
  end.

Definition lit_match (ic : bool) (a c : ascii) : bool :=
  if ic then bool_decide (lower_char a = lower_char c) else bool_decide (a = c).

(** [\b] holds between a [\w] character and a non-[\w] character or an end
    of the string. *)
Definition at_boundary (prev : option ascii) (s : text) : bool :=
  xorb (from_option is_word false prev) (from_option is_word false (head s)).

Record marks := { g_open : option nat; g_close : option nat }.

Record rmatch := { m_start : nat; m_end : nat; m_marks : marks }.

Section Matcher.
Variable ic : bool.

(** [cs+] followed by the continuation [k]: take one character, then
    prefer taking more, and only then try [k]. *)
Fixpoint plus_loop {R} (cs : charset) (k : option ascii -> nat -> text -> option R)
    (pos : nat) (s : text) : option R :=
  match s with
  | [] => None
  | c :: s' =>
      if cs_match ic cs c then
        match plus_loop cs k (S pos) s' with
        | Some r => Some r
        | None => k (Some c) (S pos) s'
        end
      else None
  end.

(** Match [re] at position [pos], where [prev] is the character before
    [pos] and [s] the rest of the subject.  Returns the end position and
    the group marks. *)
Fixpoint run (re : regex) (mk : marks) (prev : option ascii) (pos : nat) (s : text)
    : option (nat * marks) :=
  match re with
  | [] => Some (pos, mk)
  | Lit a :: re' =>
      match s with
      | c :: s' => if lit_match ic a c then run re' mk (Some c) (S pos) s' else None
      | [] => None
      end
  | OneOf cs :: re' =>
      match s with
      | c :: s' => if cs_match ic cs c then run re' mk (Some c) (S pos) s' else None
      | [] => None
      end
  | Plus cs :: re' => plus_loop cs (fun prev' pos' s' => run re' mk prev' pos' s') pos s
  | GroupOpen :: re' => run re' {| g_open := Some pos; g_close := g_close mk |} prev pos s
  | GroupClose :: re' => run re' {| g_open := g_open mk; g_close := Some pos |} prev pos s
  | Boundary :: re' => if at_boundary prev s then run re' mk prev pos s else None
  end.

(** Leftmost match: try every start position in turn. *)
Fixpoint search_from (re : regex) (prev : option ascii) (pos : nat) (s : text)
    : option rmatch :=
  match run re {| g_open := None; g_close := None |} prev pos s with
  | Some (e, mk) => Some {| m_start := pos; m_end := e; m_marks := mk |}
  | None =>
      match s with
      | [] => None
      | c :: s' => search_from re (Some c) (S pos) s'
      end
  end.
End Matcher.

(** [re.search(pattern, s, flags)]. *)
Definition re_search (re : regex) (ic : bool) (s : text) : option rmatch :=
  search_from ic re None 0 s.

(** Number of capture groups of a pattern; [match.groups()] is a tuple of
    that length, truthy when it is not empty. *)
Definition is_open (i : item) : bool :=
  match i with GroupOpen => true | _ => false end.

Definition ngroups (re : regex) : nat := length (List.filter is_open re).

(** Patterns, or parts of patterns, without group parentheses. *)
Definition is_mark (i : item) : bool :=
  match i with GroupOpen | GroupClose => true | _ => false end.

Definition no_marks (re : regex) : Prop := forallb (fun i => negb (is_mark i)) re = true.

(** [match.group(0)] and [match.group(1)] on the subject [s]. *)
Definition group (s : text) (m : rmatch) (idx : nat) : text :=
  match idx with
  | 0 => slice (m_start m) (m_end m) s
  | _ =>
      match g_open (m_marks m), g_close (m_marks m) with
      | Some i, Some j => slice i j s
      | _, _ => []
      end
  end.

Definition lits (s : string) : regex := map Lit (str s).

Definition AZ : charset := Range "A" "Z".
Definition az : charset := Range "a" "z".

(** [([A-Z][a-z]+)] *)
Definition capitalized_group : regex := [GroupOpen; OneOf AZ; Plus az; GroupClose].

(** [([A-Z][a-z]+)\s+here\b] *)
Definition pat_here : regex :=
  capitalized_group ++ [Plus Whitespace] ++ lits "here" ++ [Boundary].

(** [my\s+name\s+is\s+([A-Z][a-z]+)] *)
Definition pat_my_name_is : regex :=
  lits "my" ++ [Plus Whitespace] ++ lits "name" ++ [Plus Whitespace] ++ lits "is"
  ++ [Plus Whitespace] ++ capitalized_group.

(** [i\s+am\s+([A-Z][a-z]+)] *)
Definition pat_i_am : regex :=
  lits "i" ++ [Plus Whitespace] ++ lits "am" ++ [Plus Whitespace] ++ capitalized_group.

(** [i'm\s+([A-Z][a-z]+)] *)
Definition pat_im : regex := lits "i'm" ++ [Plus Whitespace] ++ capitalized_group.

(** [this\s+is\s+([A-Z][a-z]+)] *)
Definition pat_this_is : regex :=
  lits "this" ++ [Plus Whitespace] ++ lits "is" ++ [Plus Whitespace] ++ capitalized_group.

(** ** find_first_name *)

(** The exceptions the modelled code can raise.  [name_part.split()[0]]
    raises [IndexError] on a string of whitespace only, [Path.rename] raises
    [FileNotFoundError] on a missing source, [import] raises [ImportError],
    [subprocess.run(..., check=True)] raises [CalledProcessError];
    [ExternalError] stands for any other [Exception] of an external tool. *)
Inductive exn : Type :=
| IndexError
| FileNotFoundError
| ImportError
| CalledProcessError
| ExternalError.

(** The outcome of a call: a returned value or a raised exception. *)
Inductive res (A : Type) : Type :=
| Ret (a : A)
| Raise (e : exn).
Arguments Ret {A} a.
Arguments Raise {A} e.

Definition skip_words : list text := map str
  [ "The"; "This"; "That"; "There"; "Here"; "Hello"; "Hi"; "Hey"; "My"; "my"; "I"; "We"; "You";
    "Everybody"; "Everyone"; "Anyone"; "Someone"; "Something"; "Somewhere"; "Today";
    "Tomorrow"; "Yesterday"; "Now"; "Then"; "When"; "Where"; "What"; "Who"; "Why"; "How";
    "Video"; "Intro"; "Introduction"; "About"; "Me"; "Just"; "just"; "And"; "Or"; "But";
    "Senior"; "Junior"; "Sophomore"; "Freshman"; "Undergrad"; "Grad"; "Team"; "Year";
    "Been"; "Have"; "Has"; "Had"; "Was"; "Were"; "Is"; "Are"; "Am"; "Be"; "Being";
    "In"; "On"; "At"; "To"; "For"; "From"; "With"; "By"; "Of"; "As"; "An"; "A";
    "First"; "Last"; "Next"; "Previous"; "Current"; "New"; "Old"; "Good"; "Bad";
    "Little"; "Big"; "Many"; "Much"; "Some"; "Any"; "All"; "Each"; "Every"; "Both";
    "College"; "University"; "School"; "Semester"; "Class"; "Course"; "Shop"; "Two";
    "Raised"; "Born"; "From"; "Living"; "Working"; "Doing"; "Going"; "Getting" ].

Definition skip_words_lower : list text := map lower skip_words.

(** [w in skip_words_lower] *)
Definition is_skip (w : text) : bool := existsb (text_eqb w) skip_words_lower.

Definition priority_patterns : list (regex * nat) :=
  [ (pat_here, 0); (pat_my_name_is, 1); (pat_i_am, 1); (pat_im, 1); (pat_this_is, 1) ].

(** [s[0].isupper()], on a non-empty [s]. *)
Definition first_isupper (s : text) : bool := from_option isupper false (head s).

(** The test of lines 165 and 167 on the cleaned name. *)
Definition valid_name (name : text) : bool :=
  nonempty name && (2 <? length name) && negb (is_skip (lower name))
  && first_isupper name.

(** Lines 159 to 168: the candidate of a matched group, [Ret (Some name)]
    when the loop returns it, [Ret None] when the loop goes on. *)
Definition candidate (name_part : text) : res (option text) :=
  if nonempty name_part then
    match split name_part with
    | [] => Raise IndexError
    | name :: _ =>
        let name := strip_nonword name in
        if nonempty name && (2 <? length name) && negb (is_skip (lower name)) then
          if first_isupper name then Ret (Some name) else Ret None
        else Ret None
    end
  else Ret None.

(** One iteration of the loop over [priority_patterns]. *)
Definition try_pattern (intro_text : text) (p : regex * nat) : res (option text) :=
  let '(pattern, group_idx) := p in
  match re_search pattern true intro_text with
  | None => Ret None
  | Some m =>
      candidate (if 0 <? ngroups pattern then group intro_text m group_idx
                 else group intro_text m 0)
  end.

Fixpoint try_patterns (intro_text : text) (ps : list (regex * nat)) : res (option text) :=
  match ps with
  | [] => Ret None
  | p :: ps' =>
      match try_pattern intro_text p with
      | Ret None => try_patterns intro_text ps'
      | r => r
      end
  end.

(** The test of lines 174 and 175 (and 179, 180) on a cleaned word. *)
Definition qualifies (clean_word : text) : bool :=
  nonempty clean_word && first_isupper clean_word && (2 <? length clean_word)
  && negb (is_skip (lower clean_word)).

(** [enumerate(l)] *)
Definition enumerate {A} (l : list A) : list (nat * A) := imap (fun i x => (i, x)) l.

(** A [for] loop whose body either returns a value or goes on. *)
Fixpoint first_some {A B} (f : A -> option B) (l : list A) : option B :=
  match l with
  | [] => None
  | x :: l' => match f x with Some y => Some y | None => first_some f l' end
  end.

(** The body of the loop of lines 172 to 182. *)
Definition fallback_step (words : list text) (iw : nat * text) : option text :=
  let '(i, word) := iw in
  let clean_word := strip_nonword word in
  if nonempty clean_word && first_isupper clean_word && (2 <? length clean_word) then
    if negb (is_skip (lower clean_word)) then
      if i + 1 <? length words then
        let next_word := strip_nonword (words !!! (i + 1)) in
        if nonempty next_word && first_isupper next_word && (2 <? length next_word) then
          if negb (is_skip (lower next_word)) then Some clean_word else None
        else None
      else None
    else None
  else None.

Definition fallback_scan (intro_text : text) : option text :=
  let words := split (take 200 intro_text) in
  first_some (fallback_step words) (enumerate (take 15 words)).

Definition intro_of (t : text) : text :=
  if 500 <? length t then take 500 t else t.

Definition find_first_name (t : text) : res (option text) :=
  let intro_text := intro_of t in
  match try_patterns intro_text priority_patterns with
  | Ret None => Ret (fallback_scan intro_text)
  | r => r
  end.


(** ** process_video *)

(** [re.sub(r'[^\w\s-]', '', s)] *)
Definition is_hyphen (c : ascii) : bool := bool_decide (c = "-"%char).

Definition strip_invalid (s : text) : text :=
  filter (fun c => is_word c || isspace c || is_hyphen c = true) s.

(** [s.strip()] *)
Fixpoint lstrip (s : text) : text :=
  match s with
  | c :: s' => if isspace c then lstrip s' else s
  | [] => []
  end.

Definition strip (s : text) : text := rev (lstrip (rev (lstrip s))).

(** [re.sub(r'[-\s]+', '-', s)]: every maximal run of hyphens and whitespace
    becomes one hyphen.  [in_run] tells that the previous character was
    part of a run. *)
Fixpoint collapse_runs (in_run : bool) (s : text) : text :=
  match s with
  | [] => []
  | c :: s' =>
      if is_hyphen c || isspace c
      then (if in_run then collapse_runs true s' else "-"%char :: collapse_runs true s')
      else c :: collapse_runs false s'
  end.

(** Lines 236 to 239. *)
Definition sanitize (name : text) : res text :=
  match (if nonempty name then split name else [name]) with
  | [] => Raise IndexError
  | name :: _ =>
      let safe_name := strip (strip_invalid name) in
      Ret (collapse_runs false safe_name)
  end.

(** The name of [final_mp3] (lines 234 to 240 and 259) for the result of
    [find_first_name]; [None] and the empty string are falsy. *)
Definition final_name (name : option text) : res string :=
  match name with
  | Some (c :: n) =>
      match sanitize (c :: n) with
      | Ret safe_name => Ret (string_of_list_ascii safe_name +:+ ".mp3")
      | Raise e => Raise e
      end
  | _ => Ret "audio.mp3"
  end.

(** The directory of the videos: file names to file contents. *)
Abbreviation data := (list ascii).
Abbreviation filesystem := (gmap string data).

(** What the [try] block of lines 198 to 206 does: [ffmpeg -y] writes the
    temporary file, or the extraction raises, possibly leaving a partial
    file behind. *)
Inductive extract_outcome : Type :=
| Extracted (audio : data)
| ExtractFailed (partial : option data).

(** What [transcribe_audio] does on the temporary file. *)
Inductive transcribe_outcome : Type :=
| Transcribed (transcription : text)
| TranscribeFailed.

Definition temp_name (stem : string) : string := "temp_audio_" +:+ stem +:+ ".mp3".

(** [if p.exists(): p.unlink()] *)
Definition unlink_if_exists (p : string) (fs : filesystem) : filesystem :=
  match fs !! p with
  | Some _ => delete p fs
  | None => fs
  end.

(** [src.rename(dst)] *)
Definition rename (src dst : string) (fs : filesystem) : res filesystem :=
  match fs !! src with
  | Some d => Ret (<[dst := d]> (delete src fs))
  | None => Raise FileNotFoundError
  end.

(** Lines 234 to 276, after the transcription. *)
Definition finalize (temp_mp3 : string) (transcription : text) (fs : filesystem)
    : res bool * filesystem :=
  match find_first_name transcription with
  | Raise e => (Raise e, fs)
  | Ret name =>
      match final_name name with
      | Raise e => (Raise e, fs)
      | Ret final_mp3 =>
          match fs !! final_mp3 with
          | Some _ => (Ret true, unlink_if_exists temp_mp3 fs)
          | None =>
              match rename temp_mp3 final_mp3 fs with
              | Ret fs' => (Ret true, fs')
              | Raise e => (Raise e, fs)
              end
          end
      end
  end.

Definition process_video (stem : string) (ex : extract_outcome) (tr : transcribe_outcome)
    (fs : filesystem) : res bool * filesystem :=
  let temp_mp3 := temp_name stem in
  match ex with
  | ExtractFailed partial =>
      let fs := match partial with Some d => <[temp_mp3 := d]> fs | None => fs end in
      (Ret false, unlink_if_exists temp_mp3 fs)
  | Extracted audio =>
      let fs := <[temp_mp3 := audio]> fs in
      match tr with
      | TranscribeFailed => (Ret false, unlink_if_exists temp_mp3 fs)
      | Transcribed transcription => finalize temp_mp3 transcription fs
      end
  end.

(** ** main: the tally of lines 335 to 350 *)

Record tally := { successful : nat; skipped : nat; failed : nat }.

Definition count (r : res bool) (t : tally) : tally :=
  match r with
  | Ret true => {| successful := successful t + 1; skipped := skipped t; failed := failed t |}
  | Ret false => {| successful := successful t; skipped := skipped t; failed := failed t + 1 |}
  | Raise _ => {| successful := successful t; skipped := skipped t; failed := failed t + 1 |}
  end.

Fixpoint main_loop (videos : list (string * extract_outcome * transcribe_outcome))
    (t : tally) (fs : filesystem) : tally * filesystem :=
  match videos with
  | [] => (t, fs)
  | (stem, ex, tr) :: videos' =>
      let '(result, fs') := process_video stem ex tr fs in
      main_loop videos' (count result t) fs'
  end.

(** ** transcribe_audio *)

(** What the function can touch: the temporary directories that exist and
    the value of [PATH] in [os.environ]. *)
Record world := { dirs : gset string; path_env : option string }.

(** How far the set-up of lines 65 to 80 gets before it raises:
    [SetupNone] when nothing was created, [SetupDir d] when [mkdtemp] made
    [d] and the copy or symlink raised, [SetupDone d] when [PATH] was set. *)
Inductive setup_outcome : Type :=
| SetupNone
| SetupDir (d : string)
| SetupDone (d : string).

(** What an external call does: it returns, raises [ImportError], or raises
    another exception. *)
Inductive step : Type :=
| Ok
| FailImport
| Fail.

Record scenario := {
  setup : setup_outcome;
  import_whisper : step;        (* line 85 *)
  load_model : step;            (* lines 87 to 91 *)
  transcribe : step;            (* line 92 *)
  pip_install : bool;           (* line 100 *)
  import_whisper' : step;       (* line 101 *)
  load_model' : step;           (* lines 103 to 107 *)
  transcribe' : step;           (* line 108 *)
  result_text : text
}.

Definition pathsep : string := ":".

(** Lines 64 to 82. *)
Definition set_up (o : setup_outcome) (w : world) : option string * world :=
  match o with
  | SetupNone => (None, w)
  | SetupDir d => (Some d, {| dirs := {[d]} ∪ dirs w; path_env := path_env w |})
  | SetupDone d =>
      (Some d, {| dirs := {[d]} ∪ dirs w;
                  path_env := Some (d +:+ pathsep +:+ default "" (path_env w)) |})
  end.

(** [if temp_ffmpeg_dir and os.path.exists(temp_ffmpeg_dir): shutil.rmtree(...)] *)
Definition clean_up (temp_ffmpeg_dir : option string) (w : world) : world :=
  match temp_ffmpeg_dir with
  | Some d =>
      if bool_decide (d ∈ dirs w)
      then {| dirs := dirs w ∖ {[d]}; path_env := path_env w |}
      else w
  | None => w
  end.

Definition exn_of (o : step) : exn :=
  match o with FailImport => ImportError | _ => ExternalError end.

(** Import, load the model, transcribe: the calls of lines 85 to 92, and
    again of lines 101 to 108. *)
Definition use_whisper (o_import o_load o_transcribe : step) (t : text) : res text :=
  match o_import with
  | Ok =>
      match o_load with
      | Ok => match o_transcribe with Ok => Ret t | o => Raise (exn_of o) end
      | o => Raise (exn_of o)
      end
  | o => Raise (exn_of o)
  end.

Definition transcribe_audio (sc : scenario) (w : world) : res text * world :=
  let '(temp_ffmpeg_dir, w) := set_up (setup sc) w in
  match use_whisper (import_whisper sc) (load_model sc) (transcribe sc) (result_text sc) with
  | Ret t => (Ret t, clean_up temp_ffmpeg_dir w)
  | Raise ImportError =>
      (* the handler of line 98; what it raises leaves the [try] statement *)
      if pip_install sc then
        match use_whisper (import_whisper' sc) (load_model' sc) (transcribe' sc)
                (result_text sc) with
        | Ret t => (Ret t, clean_up temp_ffmpeg_dir w)
        | Raise e => (Raise e, w)
        end
      else (Raise CalledProcessError, w)
  | Raise e => (Raise e, clean_up temp_ffmpeg_dir w)
  end.

(** The characters of a cleaned name. *)
Definition file_char (c : ascii) : Prop := is_word c || is_hyphen c = true.

(** No two hyphens in a row; [after_hyphen] tells that the previous
    character was one. *)
Fixpoint single_hyphens (after_hyphen : bool) (s : text) : bool :=
  match s with
  | [] => true
  | c :: s' =>
      if is_hyphen c then negb after_hyphen && single_hyphens true s'
      else single_hyphens false s'
  end.

(** Two installations and a starting state, for the examples. *)

(** An installation where everything works. *)
Definition all_good (d : string) : scenario :=
  {| setup := SetupDone d; import_whisper := Ok; load_model := Ok; transcribe := Ok;
     pip_install := true; import_whisper' := Ok; load_model' := Ok; transcribe' := Ok;
     result_text := str "Hello" |}.

(** An installation without whisper, where the model fails to load after
    the package was installed. *)
Definition load_fails_after_install (d : string) : scenario :=
  {| setup := SetupDone d; import_whisper := FailImport; load_model := Ok;
     transcribe := Ok; pip_install := true; import_whisper' := Ok; load_model' := Fail;
     transcribe' := Ok; result_text := str "Hello" |}.

Definition world0 : world := {| dirs := ∅; path_env := Some "/usr/bin" |}.


(** * Properties *)

(** ** Characters *)

Ltac by_cases_on_char c :=
  destruct c as [[] [] [] [] [] [] [] []]; vm_compute; try reflexivity; try discriminate.

Lemma AZ_ignorecase (c : ascii) : cs_match true AZ c = is_letter c.
Proof. by_cases_on_char c. Qed.

Lemma az_ignorecase (c : ascii) : cs_match true az c = is_letter c.
Proof. by_cases_on_char c. Qed.

Lemma letter_is_word (c : ascii) : is_letter c = true -> is_word c = true.
Proof. by_cases_on_char c. Qed.

Lemma letter_not_space (c : ascii) : is_letter c = true -> isspace c = false.
Proof. by_cases_on_char c. Qed.

Lemma word_not_space (c : ascii) : is_word c = true -> isspace c = false.
Proof. by_cases_on_char c. Qed.

(** ** The matcher *)

Lemma last_cons {A} (w : list A) (a d : A) : List.last (a :: w) d = List.last w a.
Proof.
  revert a d. induction w as [|b w IH]; intros a d; [reflexivity|].
  change (List.last (a :: b :: w) d) with (List.last (b :: w) d).
  rewrite !IH. reflexivity.
Qed.

Section MatcherFacts.
Variable ic : bool.

Lemma plus_loop_sound {R} cs (k : option ascii -> nat -> text -> option R) pos s r :
  plus_loop ic cs k pos s = Some r ->
  exists c w s',
    s = c :: w ++ s'
    /\ Forall (fun x => cs_match ic cs x = true) (c :: w)
    /\ k (Some (List.last w c)) (pos + S (length w)) s' = Some r.
Proof.
  revert pos. induction s as [|c s IH]; intros pos H; simpl in H; [discriminate|].
  destruct (cs_match ic cs c) eqn:Hc; [|discriminate].
  destruct (plus_loop ic cs k (S pos) s) as [r'|] eqn:Hl.
  - injection H as ->.
    destruct (IH _ Hl) as (c' & w & s' & -> & Hall & Hk).
    exists c, (c' :: w), s'. split; [reflexivity|]. split.
    + constructor; assumption.
    + rewrite last_cons. simpl length.
      replace (pos + S (S (length w))) with (S pos + S (length w)) by lia. exact Hk.
  - exists c, [], s. split; [reflexivity|]. split.
    + constructor; [assumption|constructor].
    + simpl. replace (pos + 1) with (S pos) by lia. exact H.
Qed.

(** A successful run ends inside the subject, and what is left to match
    after a prefix of the pattern is a suffix of the subject. *)
Lemma run_app_sound r1 r2 mk prev pos s e mk' :
  run ic (r1 ++ r2) mk prev pos s = Some (e, mk') ->
  exists mk1 prev1 n,
    n <= length s
    /\ run ic r2 mk1 prev1 (pos + n) (drop n s) = Some (e, mk')
    /\ (no_marks r1 -> mk1 = mk).
Proof.
  revert mk prev pos s.
  induction r1 as [|i r1 IH]; intros mk prev pos s H.
  - exists mk, prev, 0. rewrite Nat.add_0_r, drop_0. split; [lia|]. split; [exact H|reflexivity].
  - destruct i as [a|cs|cs| | |]; simpl in H.
    + destruct s as [|c s]; [discriminate|].
      destruct (lit_match ic a c); [|discriminate].
      destruct (IH _ _ _ _ H) as (mk1 & prev1 & n & Hn & Hr & Hm).
      exists mk1, prev1, (S n). simpl. split; [lia|]. split.
      * replace (pos + S n) with (S pos + n) by lia. exact Hr.
      * intros Hnm. apply Hm. exact Hnm.
    + destruct s as [|c s]; [discriminate|].
      destruct (cs_match ic cs c); [|discriminate].
      destruct (IH _ _ _ _ H) as (mk1 & prev1 & n & Hn & Hr & Hm).
      exists mk1, prev1, (S n). simpl. split; [lia|]. split.
      * replace (pos + S n) with (S pos + n) by lia. exact Hr.
      * intros Hnm. apply Hm. exact Hnm.
    + apply plus_loop_sound in H as (c & w & s' & -> & _ & Hk).
      destruct (IH _ _ _ _ Hk) as (mk1 & prev1 & n & Hn & Hr & Hm).
      exists mk1, prev1, (S (length w) + n). split.
      { simpl. rewrite length_app. lia. }
      split.
      * replace (drop (S (length w) + n) (c :: w ++ s')) with (drop n s').
        { replace (pos + (S (length w) + n)) with (pos + S (length w) + n) by lia. exact Hr. }
        simpl. rewrite <- drop_drop, drop_app_length. reflexivity.
      * intros Hnm. apply Hm. exact Hnm.
    + destruct (IH _ _ _ _ H) as (mk1 & prev1 & n & Hn & Hr & Hm).
      exists mk1, prev1, n. split; [exact Hn|]. split; [exact Hr|].
      intros Hnm. discriminate Hnm.
    + destruct (IH _ _ _ _ H) as (mk1 & prev1 & n & Hn & Hr & Hm).
      exists mk1, prev1, n. split; [exact Hn|]. split; [exact Hr|].
      intros Hnm. discriminate Hnm.
    + destruct (at_boundary prev s); [|discriminate].
      destruct (IH _ _ _ _ H) as (mk1 & prev1 & n & Hn & Hr & Hm).
      exists mk1, prev1, n. split; [exact Hn|]. split; [exact Hr|].
      intros Hnm. apply Hm. exact Hnm.
Qed.

Lemma run_bounds re mk prev pos s e mk' :
  run ic re mk prev pos s = Some (e, mk') -> pos <= e <= pos + length s.
Proof.
  intros H. rewrite <- (app_nil_r re) in H.
  apply run_app_sound in H as (mk1 & prev1 & n & Hn & Hr & _).
  simpl in Hr. injection Hr as <- _. lia.
Qed.

Lemma search_from_sound re prev pos s m :
  search_from ic re prev pos s = Some m ->
  exists n prev',
    n <= length s /\ m_start m = pos + n
    /\ run ic re {| g_open := None; g_close := None |} prev' (pos + n) (drop n s)
       = Some (m_end m, m_marks m).
Proof.
  revert prev pos. induction s as [|c s IH]; intros prev pos H; simpl in H.
  - destruct (run ic re _ prev pos []) as [[e mk]|] eqn:Hr; [|discriminate].
    injection H as <-. exists 0, prev. simpl. rewrite Nat.add_0_r. auto.
  - destruct (run ic re _ prev pos (c :: s)) as [[e mk]|] eqn:Hr.
    + injection H as <-. exists 0, prev. simpl. rewrite Nat.add_0_r. split; [lia|]. auto.
    + destruct (IH _ _ H) as (n & prev' & Hn & Hs & Hrun).
      exists (S n), prev'. simpl. split; [lia|]. split; [lia|].
      replace (pos + S n) with (S pos + n) by lia. exact Hrun.
Qed.
End MatcherFacts.

Lemma run_no_marks ic re mk prev pos s e mk' :
  no_marks re -> run ic re mk prev pos s = Some (e, mk') -> mk' = mk.
Proof.
  intros Hn H. rewrite <- (app_nil_r re) in H.
  apply run_app_sound in H as (mk1 & prev1 & n & _ & Hr & Hm).
  simpl in Hr. injection Hr as _ <-. auto.
Qed.

(** What [([A-Z][a-z]+)] consumes under IGNORECASE: two letters or more,
    recorded as group 1. *)
Lemma run_capitalized_group re' mk prev pos s e mk' :
  run true (capitalized_group ++ re') mk prev pos s = Some (e, mk') ->
  exists name s' prev',
    s = name ++ s' /\ 2 <= length name /\ letters name
    /\ run true re' {| g_open := Some pos; g_close := Some (pos + length name) |}
         prev' (pos + length name) s' = Some (e, mk').
Proof.
  intros H. unfold capitalized_group in H. cbn [app run] in H.
  destruct s as [|c s]; [discriminate|].
  destruct (cs_match true AZ c) eqn:Hc; [|discriminate].
  apply plus_loop_sound in H as (c' & w & s' & -> & Hall & Hk).
  cbn [run g_open g_close] in Hk.
  exists (c :: c' :: w), s', (Some (List.last w c')).
  split; [reflexivity|]. split; [simpl; lia|]. split.
  - constructor; [rewrite <- AZ_ignorecase; exact Hc|].
    eapply Forall_impl; [exact Hall|]. intros x Hx. rewrite <- az_ignorecase. exact Hx.
  - simpl length. replace (pos + S (S (length w))) with (S pos + S (length w)) by lia.
    exact Hk.
Qed.

Lemma slice_spec (subj : text) (i : nat) (x y : text) :
  drop i subj = x ++ y -> slice i (i + length x) subj = x.
Proof.
  intros H. unfold slice. rewrite H.
  replace (i + length x - i) with (length x) by lia.
  apply take_app_length.
Qed.

(** A pattern that ends with the capture group: group 1 is a run of two
    letters or more. *)
Lemma search_group_last pre subj m :
  no_marks pre ->
  re_search (pre ++ capitalized_group) true subj = Some m ->
  letters (group subj m 1) /\ 2 <= length (group subj m 1).
Proof.
  intros Hpre H. unfold re_search in H.
  apply search_from_sound in H as (n & prev' & Hn & _ & Hr).
  apply run_app_sound in Hr as (mk1 & prev1 & n2 & Hn2 & Hr & Hm).
  rewrite <- (app_nil_r capitalized_group) in Hr.
  apply run_capitalized_group in Hr as (name & s' & prev2 & Hs & Hlen & Hl & Hr).
  simpl in Hr. injection Hr as _ Hmk.
  rewrite drop_drop in Hs. simpl in Hs.
  unfold group. rewrite <- Hmk. simpl.
  rewrite (slice_spec _ _ _ _ Hs). auto.
Qed.

(** The pattern [([A-Z][a-z]+)\s+here\b]: group 1 is a run of two letters
    or more, and the whole match is group 1 followed by whitespace. *)
Lemma search_here subj m :
  re_search pat_here true subj = Some m ->
  letters (group subj m 1) /\ 2 <= length (group subj m 1)
  /\ exists sp more, isspace sp = true /\ group subj m 0 = group subj m 1 ++ sp :: more.
Proof.
  intros H. unfold re_search in H.
  apply search_from_sound in H as (n & prev' & Hn & Hstart & Hr).
  simpl in Hstart. unfold pat_here in Hr.
  apply run_capitalized_group in Hr as (name & s' & prev2 & Hs & Hlen & Hl & Hr).
  simpl in Hs.
  pose proof Hr as Hmk. apply run_no_marks in Hmk; [|reflexivity].
  pose proof (run_bounds _ _ _ _ _ _ _ _ Hr) as Hb.
  change ([Plus Whitespace] ++ lits "here" ++ [Boundary])
    with (Plus Whitespace :: (lits "here" ++ [Boundary])) in Hr.
  cbn [run] in Hr.
  apply plus_loop_sound in Hr as (sp & w & s'' & -> & Hall & Hk).
  apply run_bounds in Hk.
  assert (Hg1 : group subj m 1 = name).
  { unfold group. rewrite Hmk. simpl. apply (slice_spec _ _ _ _ Hs). }
  rewrite Hg1. split; [exact Hl|]. split; [exact Hlen|].
  exists sp, (take (m_end m - n - length name - 1) (w ++ s'')).
  split; [inversion Hall; assumption|].
  unfold group, slice. rewrite Hstart, Hs. simpl.
  rewrite take_app.
  rewrite take_ge by lia.
  f_equal.
  destruct (m_end m - n - length name) as [|k] eqn:Hk'; [lia|].
  simpl. f_equal. f_equal. lia.
Qed.

(** ** split and strip_nonword *)

Lemma split_from_nonspace cur w r :
  Forall (fun c => isspace c = false) w ->
  split_from cur (w ++ r) = split_from (rev w ++ cur) r.
Proof.
  revert cur. induction w as [|c w IH]; intros cur Hw; [reflexivity|].
  inversion Hw as [|? ? Hc Hw']; subst. simpl. rewrite Hc.
  rewrite IH by assumption. rewrite <- app_assoc. reflexivity.
Qed.

Lemma split_word w :
  w <> [] -> Forall (fun c => isspace c = false) w -> split w = [w].
Proof.
  intros Hne Hw. unfold split.
  rewrite <- (app_nil_r w) at 1. rewrite split_from_nonspace by assumption.
  rewrite app_nil_r. simpl. rewrite rev_involutive.
  destruct (rev w) eqn:Hr; [|reflexivity].
  apply (f_equal (@rev _)) in Hr. rewrite rev_involutive in Hr. contradiction.
Qed.

Lemma split_word_space w sp more :
  w <> [] -> Forall (fun c => isspace c = false) w -> isspace sp = true ->
  split (w ++ sp :: more) = w :: split more.
Proof.
  intros Hne Hw Hsp. unfold split.
  rewrite split_from_nonspace by assumption.
  rewrite app_nil_r. simpl. rewrite Hsp, rev_involutive.
  destruct (rev w) eqn:Hr; [|reflexivity].
  apply (f_equal (@rev _)) in Hr. rewrite rev_involutive in Hr. contradiction.
Qed.

Lemma strip_nonword_id w :
  Forall (fun c => is_word c = true) w -> strip_nonword w = w.
Proof.
  induction 1 as [|c w Hc Hw IH]; [reflexivity|].
  unfold strip_nonword. rewrite filter_cons_True by assumption.
  f_equal. exact IH.
Qed.

Lemma strip_nonword_word w : Forall (fun c => is_word c = true) (strip_nonword w).
Proof.
  unfold strip_nonword. apply list.Forall_forall. intros c Hc.
  apply list_elem_of_filter in Hc. tauto.
Qed.

Lemma letters_word w : letters w -> Forall (fun c => is_word c = true) w.
Proof. intros H. eapply Forall_impl; [exact H|exact letter_is_word]. Qed.

Lemma letters_nonspace w : letters w -> Forall (fun c => isspace c = false) w.
Proof. intros H. eapply Forall_impl; [exact H|exact letter_not_space]. Qed.

(** ** The priority patterns *)

Lemma candidate_letters name :
  letters name -> 2 <= length name ->
  candidate name = if valid_name name then Ret (Some name) else Ret None.
Proof.
  intros Hl Hlen. unfold candidate.
  destruct name as [|c name]; [simpl in Hlen; lia|]. cbn [nonempty].
  rewrite split_word; [|discriminate|apply letters_nonspace; exact Hl].
  cbn zeta. rewrite strip_nonword_id by (apply letters_word; exact Hl).
  unfold valid_name.
  destruct (nonempty (c :: name) && (2 <? length (c :: name))
            && negb (is_skip (lower (c :: name)))); [|reflexivity].
  destruct (first_isupper (c :: name)); reflexivity.
Qed.

Lemma candidate_letters_space name sp more :
  letters name -> 2 <= length name -> isspace sp = true ->
  candidate (name ++ sp :: more) = if valid_name name then Ret (Some name) else Ret None.
Proof.
  intros Hl Hlen Hsp. rewrite <- (candidate_letters name Hl Hlen).
  unfold candidate.
  destruct name as [|c name]; [simpl in Hlen; lia|].
  change ((c :: name) ++ sp :: more) with (c :: (name ++ sp :: more)) at 1.
  cbn [nonempty].
  rewrite split_word_space; [|discriminate|apply letters_nonspace; exact Hl|exact Hsp].
  rewrite split_word; [|discriminate|apply letters_nonspace; exact Hl].
  reflexivity.
Qed.

(** Whenever a priority pattern matches, the candidate is group 1 of the
    match, a run of two letters or more, and the iteration returns it
    exactly when it passes the validation. *)
Lemma try_pattern_match subj p m :
  In p priority_patterns ->
  re_search (fst p) true subj = Some m ->
  letters (group subj m 1) /\ 2 <= length (group subj m 1)
  /\ try_pattern subj p
     = if valid_name (group subj m 1) then Ret (Some (group subj m 1)) else Ret None.
Proof.
  intros Hin Hm.
  assert (Hlast : forall pre, no_marks pre -> p = (pre ++ capitalized_group, 1) ->
            ngroups (pre ++ capitalized_group) = 1 ->
            letters (group subj m 1) /\ 2 <= length (group subj m 1)
            /\ try_pattern subj p
               = if valid_name (group subj m 1) then Ret (Some (group subj m 1))
                 else Ret None).
  { intros pre Hpre -> Hng. cbn [fst] in Hm.
    destruct (search_group_last pre subj m Hpre Hm) as [Hl Hlen].
    split; [exact Hl|]. split; [exact Hlen|].
    unfold try_pattern. rewrite Hm, Hng. cbn [Nat.ltb Nat.leb].
    apply candidate_letters; assumption. }
  cbn [priority_patterns In] in Hin.
  destruct Hin as [<-|[<-|[<-|[<-|[<-|[]]]]]].
  - cbn [fst] in Hm.
    destruct (search_here subj m Hm) as (Hl & Hlen & sp & more & Hsp & Hg0).
    split; [exact Hl|]. split; [exact Hlen|].
    unfold try_pattern. rewrite Hm.
    change (0 <? ngroups pat_here) with true. cbn iota.
    rewrite Hg0. apply candidate_letters_space; assumption.
  - apply (Hlast (lits "my" ++ [Plus Whitespace] ++ lits "name" ++ [Plus Whitespace]
                  ++ lits "is" ++ [Plus Whitespace])); reflexivity.
  - apply (Hlast (lits "i" ++ [Plus Whitespace] ++ lits "am" ++ [Plus Whitespace]));
      reflexivity.
  - apply (Hlast (lits "i'm" ++ [Plus Whitespace])); reflexivity.
  - apply (Hlast (lits "this" ++ [Plus Whitespace] ++ lits "is" ++ [Plus Whitespace]));
      reflexivity.
Qed.

Lemma valid_name_spec name :
  valid_name name = true ->
  first_isupper name = true /\ 2 < length name /\ is_skip (lower name) = false.
Proof.
  unfold valid_name. rewrite !andb_true_iff, negb_true_iff, Nat.ltb_lt. tauto.
Qed.

(** An iteration either goes on or returns a valid name made of letters;
    it never raises. *)
Lemma try_pattern_cases subj p :
  In p priority_patterns ->
  try_pattern subj p = Ret None
  \/ exists name, try_pattern subj p = Ret (Some name)
                  /\ valid_name name = true /\ letters name.
Proof.
  intros Hin. destruct (re_search (fst p) true subj) as [m|] eqn:Hm.
  - destruct (try_pattern_match subj p m Hin Hm) as (Hl & _ & ->).
    destruct (valid_name (group subj m 1)) eqn:Hv; [right|left; reflexivity].
    exists (group subj m 1). auto.
  - left. unfold try_pattern. destruct p as [pattern idx]. cbn [fst] in Hm.
    rewrite Hm. reflexivity.
Qed.

Lemma try_patterns_cases subj ps :
  (forall p, In p ps -> In p priority_patterns) ->
  try_patterns subj ps = Ret None
  \/ exists name, try_patterns subj ps = Ret (Some name)
                  /\ valid_name name = true /\ letters name.
Proof.
  induction ps as [|p ps IH]; intros Hsub; [left; reflexivity|].
  cbn [try_patterns].
  destruct (try_pattern_cases subj p) as [->|(name & -> & Hv & Hl)].
  - apply Hsub. left. reflexivity.
  - apply IH. intros q Hq. apply Hsub. right. exact Hq.
  - right. exists name. auto.
Qed.

(** ** find_first_name *)

Lemma intro_of_take t : intro_of t = take 500 t.
Proof.
  unfold intro_of. destruct (500 <? length t) eqn:H; [reflexivity|].
  apply Nat.ltb_ge in H. symmetry. apply take_ge. exact H.
Qed.

Lemma take_200_intro t : take 200 (intro_of t) = take 200 t.
Proof. rewrite intro_of_take, take_take. f_equal. Qed.

(** The two ways [find_first_name] ends: the priority loop returns a valid
    name made of letters, or it falls through to the positional scan. *)
Lemma find_first_name_cases t :
  (try_patterns (intro_of t) priority_patterns = Ret None
   /\ find_first_name t = Ret (fallback_scan (intro_of t)))
  \/ exists name, try_patterns (intro_of t) priority_patterns = Ret (Some name)
                  /\ find_first_name t = Ret (Some name)
                  /\ valid_name name = true /\ letters name.
Proof.
  unfold find_first_name. cbn zeta.
  destruct (try_patterns_cases (intro_of t) priority_patterns) as [H|(name & H & Hv & Hl)].
  - auto.
  - left. rewrite H. auto.
  - right. exists name. rewrite H. auto.
Qed.

(** [find_first_name] never raises: the [IndexError] of [split()[0]] is out
    of reach, a matched group never being blank. *)
Lemma find_first_name_total t : exists o, find_first_name t = Ret o.
Proof.
  destruct (find_first_name_cases t) as [[_ H]|(name & _ & H & _)]; eauto.
Qed.

Lemma try_patterns_app subj ps qs :
  try_patterns subj ps = Ret None ->
  try_patterns subj (ps ++ qs) = try_patterns subj qs.
Proof.
  induction ps as [|p ps IH]; intros H; [reflexivity|].
  cbn [try_patterns app] in *.
  destruct (try_pattern subj p) as [[name|]|e]; try discriminate.
  apply IH. exact H.
Qed.

(** ** The positional scan *)

Lemma first_some_Some {A B} (f : A -> option B) (l : list A) (y : B) :
  first_some f l = Some y <->
  exists i x, l !! i = Some x /\ f x = Some y
              /\ forall j x', j < i -> l !! j = Some x' -> f x' = None.
Proof.
  induction l as [|a l IH]; cbn [first_some].
  - split; [discriminate|]. intros (i & x & H & _). rewrite lookup_nil in H. discriminate.
  - destruct (f a) as [y0|] eqn:Hfa.
    + split.
      * intros [= ->]. exists 0, a. split; [reflexivity|]. split; [exact Hfa|]. intros j x' Hj. lia.
      * intros (i & x & Hi & Hx & Hbefore). destruct i as [|i].
        -- cbn in Hi. injection Hi as ->. congruence.
        -- specialize (Hbefore 0 a). rewrite Hbefore in Hfa; [discriminate|lia|reflexivity].
    + rewrite IH. split.
      * intros (i & x & Hi & Hx & Hbefore). exists (S i), x.
        split; [exact Hi|]. split; [exact Hx|].
        intros [|j] x' Hj Hl.
        -- cbn in Hl. injection Hl as <-. exact Hfa.
        -- apply (Hbefore j); [lia|exact Hl].
      * intros (i & x & Hi & Hx & Hbefore). destruct i as [|i].
        -- cbn in Hi. injection Hi as ->. congruence.
        -- exists i, x. split; [exact Hi|]. split; [exact Hx|].
           intros j x' Hj Hl. apply (Hbefore (S j)); [lia|exact Hl].
Qed.

Lemma first_some_None {A B} (f : A -> option B) (l : list A) :
  first_some f l = None <-> forall i x, l !! i = Some x -> f x = None.
Proof.
  induction l as [|a l IH]; cbn [first_some].
  - split; [|reflexivity]. intros _ i x H. rewrite lookup_nil in H. discriminate.
  - destruct (f a) as [y0|] eqn:Hfa.
    + split; [discriminate|]. intros H. rewrite (H 0 a) in Hfa; [discriminate|reflexivity].
    + rewrite IH. split.
      * intros H [|i] x Hl; [cbn in Hl; injection Hl as <-; exact Hfa|].
        apply (H i). exact Hl.
      * intros H i x Hl. apply (H (S i)). exact Hl.
Qed.

Lemma enumerate_lookup {A} (l : list A) (i j : nat) (x : A) :
  enumerate l !! i = Some (j, x) <-> j = i /\ l !! i = Some x.
Proof.
  unfold enumerate. rewrite list_lookup_imap.
  destruct (l !! i) as [a|]; cbn; split.
  - intros [= <- <-]. auto.
  - intros [-> [= ->]]. reflexivity.
  - discriminate.
  - intros [_ H]. discriminate.
Qed.

(** The body of the scan returns the cleaned word exactly when it and the
    cleaned next word both qualify. *)
Lemma fallback_step_Some words i w n :
  fallback_step words (i, w) = Some n <->
  n = strip_nonword w /\ qualifies (strip_nonword w) = true
  /\ exists w', words !! (i + 1) = Some w' /\ qualifies (strip_nonword w') = true.
Proof.
  unfold fallback_step, qualifies. cbn zeta.
  destruct (i + 1 <? length words) eqn:Hlen.
  - apply Nat.ltb_lt in Hlen.
    rewrite (list_lookup_lookup_total_lt words (i + 1) Hlen).
    set (cw := strip_nonword w).
    set (a := nonempty cw && first_isupper cw && (2 <? length cw)).
    set (b := negb (is_skip (lower cw))).
    assert (Hex : forall (Q : text -> Prop),
               (exists w', Some (words !!! (i + 1)) = Some w' /\ Q w')
               <-> Q (words !!! (i + 1))).
    { intros Q. split; [intros (w' & [= <-] & H); exact H|eauto]. }
    rewrite (Hex (fun w' => _ = true)).
    set (nw := strip_nonword (words !!! (i + 1))).
    set (c := nonempty nw && first_isupper nw && (2 <? length nw)).
    set (d := negb (is_skip (lower nw))).
    clearbody a b c d.
    destruct a, b, c, d; cbn [andb]; split;
      try discriminate; try (intros [= <-]; auto); try (intros (_ & H & H'); discriminate);
      try (intros (-> & _); reflexivity).
  - apply Nat.ltb_ge in Hlen.
    rewrite (lookup_ge_None_2 words (i + 1)) by lia.
    split.
    + destruct (_ && _ && _), (negb _); discriminate.
    + intros (_ & _ & w' & H & _). discriminate.
Qed.

Lemma scan_lookup (words : list text) (i j : nat) (w : text) :
  enumerate (take 15 words) !! i = Some (j, w) <->
  j = i /\ i < 15 /\ words !! i = Some w.
Proof. rewrite enumerate_lookup, lookup_take_Some. tauto. Qed.

Lemma qualifies_pair_false (words : list text) (j : nat) (u : text) :
  words !! j = Some u ->
  fallback_step words (j, u) = None <->
  forall u', words !! (j + 1) = Some u' ->
    qualifies (strip_nonword u) && qualifies (strip_nonword u') = false.
Proof.
  intros Hu. split.
  - intros Hnone u' Hu'.
    destruct (qualifies (strip_nonword u) && qualifies (strip_nonword u')) eqn:Hq;
      [|reflexivity].
    apply andb_true_iff in Hq as [Hq Hq'].
    assert (H : fallback_step words (j, u) = Some (strip_nonword u)).
    { apply fallback_step_Some. eauto. }
    congruence.
  - intros H. destruct (fallback_step words (j, u)) as [n|] eqn:Hs; [|reflexivity].
    apply fallback_step_Some in Hs as (_ & Hq & u' & Hu' & Hq').
    specialize (H u' Hu'). rewrite Hq, Hq' in H. discriminate.
Qed.

(** What the positional scan returns, by the position of the pair. *)
Lemma fallback_scan_Some (t n : text) :
  fallback_scan (intro_of t) = Some n <->
  exists i w w',
    i < 15
    /\ split (take 200 t) !! i = Some w
    /\ split (take 200 t) !! (i + 1) = Some w'
    /\ qualifies (strip_nonword w) = true
    /\ qualifies (strip_nonword w') = true
    /\ n = strip_nonword w
    /\ forall j u u', j < i ->
         split (take 200 t) !! j = Some u ->
         split (take 200 t) !! (j + 1) = Some u' ->
         qualifies (strip_nonword u) && qualifies (strip_nonword u') = false.
Proof.
  unfold fallback_scan. cbn zeta. rewrite take_200_intro.
  set (words := split (take 200 t)).
  rewrite first_some_Some. split.
  - intros (i & [j w] & Hl & Hstep & Hbefore).
    apply scan_lookup in Hl as (-> & Hi & Hw).
    apply fallback_step_Some in Hstep as (-> & Hq & w' & Hw' & Hq').
    exists i, w, w'. repeat (split; [assumption || reflexivity|]).
    intros k u u' Hk Hu Hu'.
    assert (Hnone : fallback_step words (k, u) = None).
    { apply (Hbefore k); [exact Hk|]. apply scan_lookup. split; [reflexivity|]. split; [lia|exact Hu]. }
    apply (qualifies_pair_false words k u Hu); assumption.
  - intros (i & w & w' & Hi & Hw & Hw' & Hq & Hq' & -> & Hbefore).
    exists i, (i, w). split; [apply scan_lookup; auto|]. split.
    + apply fallback_step_Some. eauto.
    + intros k [k' u] Hk Hl. apply scan_lookup in Hl as (-> & _ & Hu).
      apply (qualifies_pair_false words k u Hu). intros u' Hu'.
      apply (Hbefore k u u'); assumption.
Qed.

(** C5: the positional scan of [find_first_name] splits the first 200
    characters into words and looks at the first 15 of them; it returns the
    cleaned word at position [i] exactly when that word and the word right
    after it both qualify (start uppercase, more than two characters, not a
    stopword, after the non-word characters are stripped) and no earlier
    position holds such a pair.  A qualifying word whose follower is missing
    or does not qualify is passed over, and the first qualifying pair wins. *)
Theorem fallback_scan_first_pair (t n : text) :
  fallback_scan (intro_of t) = Some n <->
  exists i w w',
    i < 15
    /\ split (take 200 t) !! i = Some w
    /\ split (take 200 t) !! (i + 1) = Some w'
    /\ qualifies (strip_nonword w) = true
    /\ qualifies (strip_nonword w') = true
    /\ n = strip_nonword w
    /\ forall j u u', j < i ->
         split (take 200 t) !! j = Some u ->
         split (take 200 t) !! (j + 1) = Some u' ->
         qualifies (strip_nonword u) && qualifies (strip_nonword u') = false.
Proof. exact (fallback_scan_Some t n). Qed.

(** C6: when no priority pattern yields a valid candidate and no two
    adjacent words of the first 200 characters both qualify,
    [find_first_name] returns [None], a value and not an exception. *)
Theorem no_candidate_no_pair_gives_None (t : text) :
  Forall (fun p => try_pattern (intro_of t) p = Ret None) priority_patterns ->
  (forall i w w',
      split (take 200 t) !! i = Some w ->
      split (take 200 t) !! (i + 1) = Some w' ->
      qualifies (strip_nonword w) && qualifies (strip_nonword w') = false) ->
  find_first_name t = Ret None.
Proof.
  intros Hpat Hpair.
  assert (Hloop : try_patterns (intro_of t) priority_patterns = Ret None).
  { induction Hpat as [|p ps Hp _ IH]; [reflexivity|].
    cbn [try_patterns]. rewrite Hp. exact IH. }
  unfold find_first_name. cbn zeta. rewrite Hloop. f_equal.
  unfold fallback_scan. cbn zeta. rewrite take_200_intro.
  apply first_some_None. intros i [j w] Hl.
  apply scan_lookup in Hl as (-> & _ & Hw).
  apply (qualifies_pair_false _ i w Hw). intros w' Hw'. eauto.
Qed.

Lemma no_candidate_no_pair_gives_None_witness :
  find_first_name (str "Um, okay, let's get started with the project overview.")
  = Ret None.
Proof.
  apply no_candidate_no_pair_gives_None.
  - unfold priority_patterns.
    repeat (apply Forall_cons; split; [vm_compute; reflexivity|]).
    apply Forall_nil_2.
  - intros i w w' Hw Hw'.
    do 10 (destruct i as [|i];
           [vm_compute in Hw, Hw';
            first [discriminate
                  | injection Hw as <-; injection Hw' as <-; vm_compute; reflexivity]|]).
    vm_compute in Hw. discriminate.
Defined.

(** C9: [find_first_name] is a function of the first 500 characters of the
    transcript: two transcripts with the same first 500 characters, and so
    two calls on the same transcript, give the same result. *)
Theorem find_first_name_leading_window (t1 t2 : text) :
  take 500 t1 = take 500 t2 -> find_first_name t1 = find_first_name t2.
Proof.
  intros H. unfold find_first_name. rewrite !intro_of_take, H. reflexivity.
Qed.

Lemma find_first_name_leading_window_witness :
  find_first_name (repeat " "%char 500 ++ str "Bob here")
  = find_first_name (repeat " "%char 500 ++ str "my name is Alice").
Proof.
  apply find_first_name_leading_window. vm_compute. reflexivity.
Defined.

(** ** The priority loop *)

Lemma valid_name_intro name :
  first_isupper name = true -> 2 < length name -> is_skip (lower name) = false ->
  valid_name name = true.
Proof.
  intros Hu Hlen Hs. unfold valid_name. rewrite Hu, Hs.
  apply Nat.ltb_lt in Hlen. rewrite Hlen.
  destruct name; [discriminate|reflexivity].
Qed.

(** C3: a match whose candidate fails the validation does not end the
    search.  When the patterns before [p] returned nothing and [p] matches
    with a candidate that is rejected (too short, a stopword, or not
    starting with an uppercase letter), the iteration for [p] returns
    nothing and [find_first_name] gives what the remaining patterns give,
    or else what the positional scan gives. *)
Theorem rejected_match_does_not_stop_the_search
    (t : text) (pre : list (regex * nat)) (p : regex * nat) (post : list (regex * nat))
    (m : rmatch) :
  priority_patterns = pre ++ p :: post ->
  try_patterns (intro_of t) pre = Ret None ->
  re_search (fst p) true (intro_of t) = Some m ->
  valid_name (group (intro_of t) m 1) = false ->
  try_pattern (intro_of t) p = Ret None
  /\ find_first_name t =
       match try_patterns (intro_of t) post with
       | Ret None => Ret (fallback_scan (intro_of t))
       | r => r
       end.
Proof.
  intros Hsplit Hpre Hm Hinvalid.
  assert (Hin : In p priority_patterns).
  { rewrite Hsplit. apply in_or_app. right. left. reflexivity. }
  destruct (try_pattern_match (intro_of t) p m Hin Hm) as (_ & _ & Hp).
  rewrite Hinvalid in Hp. split; [exact Hp|].
  unfold find_first_name. cbn zeta.
  rewrite Hsplit, (try_patterns_app _ pre (p :: post) Hpre).
  cbn [try_patterns]. rewrite Hp. reflexivity.
Qed.

Lemma rejected_match_does_not_stop_the_search_witness :
  find_first_name (str "Hi here, my name is Alice") = Ret (Some (str "Alice")).
Proof.
  refine (eq_trans
            (proj2 (rejected_match_does_not_stop_the_search
                      (str "Hi here, my name is Alice") [] (pat_here, 0)
                      [(pat_my_name_is, 1); (pat_i_am, 1); (pat_im, 1); (pat_this_is, 1)]
                      {| m_start := 0; m_end := 7;
                         m_marks := {| g_open := Some 0; g_close := Some 2 |} |}
                      _ _ _ _)) _).
  - reflexivity.
  - reflexivity.
  - vm_compute. reflexivity.
  - vm_compute. reflexivity.
  - vm_compute. reflexivity.
Defined.

(** After a rejected match the positional scan can still give a name. *)
Example rejected_match_then_fallback :
  find_first_name (str "Is here John Smith") = Ret (Some (str "John")).
Proof. vm_compute. reflexivity. Qed.

(** A stopword and a lowercase candidate are rejected as well. *)
Example rejected_stopword_then_later_pattern :
  find_first_name (str "Hello there, I am Today and this is Bob") = Ret (Some (str "Bob")).
Proof. vm_compute. reflexivity. Qed.

Example rejected_lowercase_then_later_pattern :
  find_first_name (str "bob here, my name is Bob") = Ret (Some (str "Bob")).
Proof. vm_compute. reflexivity. Qed.

(** Only the first match of a pattern is looked at: a later, valid match of
    the same pattern is not found. *)
Example first_match_only :
  find_first_name (str "Is here. Bob here.") = Ret None.
Proof. vm_compute. reflexivity. Qed.

(** A valid capture of the first pattern is the result. *)
Lemma here_capture_returned (t : text) (m : rmatch) (name : text) :
  re_search pat_here true (intro_of t) = Some m ->
  group (intro_of t) m 1 = name ->
  first_isupper name = true ->
  2 < length name ->
  is_skip (lower name) = false ->
  find_first_name t = Ret (Some name).
Proof.
  intros Hm Hname Hu Hlen Hs.
  assert (Hin : In (pat_here, 0) priority_patterns) by (left; reflexivity).
  destruct (try_pattern_match (intro_of t) (pat_here, 0) m Hin Hm) as (_ & _ & Hp).
  rewrite Hname, (valid_name_intro name Hu Hlen Hs) in Hp.
  unfold find_first_name. cbn zeta.
  unfold priority_patterns. cbn [try_patterns]. rewrite Hp. reflexivity.
Qed.

(** C2: when the pattern [<Name> here] matches the leading text and the
    captured [<Name>] starts with an uppercase letter, has more than two
    characters and is not a stopword, [find_first_name] returns [<Name>]
    as it stands in the transcript. *)
Theorem name_here_is_returned (t : text) (m : rmatch) (name : text) :
  re_search pat_here true (intro_of t) = Some m ->
  group (intro_of t) m 1 = name ->
  first_isupper name = true ->
  2 < length name ->
  is_skip (lower name) = false ->
  find_first_name t = Ret (Some name).
Proof. exact (here_capture_returned t m name). Qed.

Lemma name_here_is_returned_witness :
  find_first_name (str "Hey everyone, Johnson here, and today I'll be...")
  = Ret (Some (str "Johnson")).
Proof.
  apply (name_here_is_returned
           (str "Hey everyone, Johnson here, and today I'll be...")
           {| m_start := 14; m_end := 26;
              m_marks := {| g_open := Some 14; g_close := Some 21 |} |}).
  - vm_compute. reflexivity.
  - vm_compute. reflexivity.
  - vm_compute. reflexivity.
  - vm_compute. lia.
  - vm_compute. reflexivity.
Defined.

(** ** The names that are returned *)

Lemma qualifies_spec w :
  qualifies w = true ->
  first_isupper w = true /\ 2 < length w /\ is_skip (lower w) = false.
Proof.
  unfold qualifies. rewrite !andb_true_iff, negb_true_iff, Nat.ltb_lt. tauto.
Qed.

(** The shape of the names that are returned. *)
Lemma returned_name_facts (t : text) (n : text) :
  find_first_name t = Ret (Some n) ->
  Forall (fun c => is_word c = true) n
  /\ (try_patterns (intro_of t) priority_patterns = Ret (Some n) -> letters n)
  /\ first_isupper n = true
  /\ 2 < length n
  /\ is_skip (lower n) = false
  /\ (forall n', find_first_name t = Ret (Some n') -> n' = n).
Proof.
  intros H.
  assert (Huniq : forall n', find_first_name t = Ret (Some n') -> n' = n).
  { intros n' H'. congruence. }
  destruct (find_first_name_cases t) as [[Hloop Hf]|(name & Hloop & Hf & Hv & Hl)].
  - rewrite Hf in H. injection H as H.
    apply fallback_scan_Some in H
      as (i & w & w' & _ & _ & _ & Hq & _ & -> & _).
    apply qualifies_spec in Hq as (Hu & Hlen & Hs).
    split; [apply strip_nonword_word|]. split; [rewrite Hloop; discriminate|]. auto.
  - rewrite Hf in H. injection H as <-.
    apply valid_name_spec in Hv as (Hu & Hlen & Hs).
    split; [apply letters_word; exact Hl|]. auto.
Qed.

(** C4: every name that [find_first_name] returns is made of word
    characters (letters, digits, underscore), of letters alone when it
    comes from the priority patterns, starts with an uppercase letter, has
    more than two characters and is not a stopword in lowercase; the
    function returns one name at most. *)
Theorem returned_name_is_well_formed (t : text) (n : text) :
  find_first_name t = Ret (Some n) ->
  Forall (fun c => is_word c = true) n
  /\ (try_patterns (intro_of t) priority_patterns = Ret (Some n) -> letters n)
  /\ first_isupper n = true
  /\ 2 < length n
  /\ is_skip (lower n) = false
  /\ (forall n', find_first_name t = Ret (Some n') -> n' = n).
Proof. exact (returned_name_facts t n). Qed.

Lemma returned_name_is_well_formed_witness :
  Forall (fun c => is_word c = true) (str "R2D2")
  /\ (try_patterns (intro_of (str "R2D2 Unit5 reporting")) priority_patterns
      = Ret (Some (str "R2D2")) -> letters (str "R2D2"))
  /\ first_isupper (str "R2D2") = true
  /\ 2 < length (str "R2D2")
  /\ is_skip (lower (str "R2D2")) = false
  /\ (forall n', find_first_name (str "R2D2 Unit5 reporting") = Ret (Some n') ->
        n' = str "R2D2").
Proof.
  apply (returned_name_is_well_formed (str "R2D2 Unit5 reporting") (str "R2D2")).
  vm_compute. reflexivity.
Defined.

(** The positional scan returns names that are not made of letters alone. *)
Lemma returned_name_with_digits :
  ~ (forall t n, find_first_name t = Ret (Some n) ->
       letters n /\ first_isupper n = true /\ 2 < length n
       /\ is_skip (lower n) = false).
Proof.
  intros H.
  destruct (H (str "R2D2 Unit5 reporting") (str "R2D2")) as [Hl _];
    [vm_compute; reflexivity|].
  apply Forall_cons in Hl as [_ Hl]. apply Forall_cons in Hl as [Hd _].
  vm_compute in Hd. discriminate.
Qed.

(** ** The file name *)

Lemma word_not_hyphen (c : ascii) : is_word c = true -> is_hyphen c = false.
Proof. by_cases_on_char c. Qed.

Lemma lstrip_nonspace (s : text) :
  Forall (fun c => isspace c = false) s -> lstrip s = s.
Proof. intros H. destruct H as [|c s Hc _]; [reflexivity|]. simpl. rewrite Hc. reflexivity. Qed.

Lemma strip_nonspace (s : text) :
  Forall (fun c => isspace c = false) s -> strip s = s.
Proof.
  intros H. unfold strip. rewrite (lstrip_nonspace s H).
  rewrite lstrip_nonspace; [apply rev_involutive|].
  apply Forall_rev. exact H.
Qed.

Lemma strip_invalid_word (s : text) :
  Forall (fun c => is_word c = true) s -> strip_invalid s = s.
Proof.
  induction 1 as [|c s Hc _ IH]; [reflexivity|].
  unfold strip_invalid. rewrite filter_cons_True by (rewrite Hc; reflexivity).
  f_equal. exact IH.
Qed.

Lemma collapse_runs_word (s : text) :
  Forall (fun c => is_word c = true) s -> collapse_runs false s = s.
Proof.
  induction 1 as [|c s Hc _ IH]; [reflexivity|].
  simpl. rewrite (word_not_hyphen c Hc), (word_not_space c Hc). simpl.
  f_equal. exact IH.
Qed.

Lemma words_nonspace (s : text) :
  Forall (fun c => is_word c = true) s -> Forall (fun c => isspace c = false) s.
Proof. intros H. eapply Forall_impl; [exact H|exact word_not_space]. Qed.

(** The cleaning of lines 236 to 239 leaves a word alone. *)
Lemma sanitize_word (n : text) :
  n <> [] -> Forall (fun c => is_word c = true) n -> sanitize n = Ret n.
Proof.
  intros Hne Hw. unfold sanitize.
  destruct n as [|c n]; [contradiction|]. cbn [nonempty].
  rewrite split_word; [|discriminate|apply words_nonspace; exact Hw].
  cbn zeta. rewrite (strip_invalid_word _ Hw).
  rewrite (strip_nonspace _ (words_nonspace _ Hw)).
  rewrite (collapse_runs_word _ Hw). reflexivity.
Qed.

Lemma final_name_word (n : text) :
  n <> [] -> Forall (fun c => is_word c = true) n ->
  final_name (Some n) = Ret (string_of_list_ascii n +:+ ".mp3").
Proof.
  intros Hne Hw. unfold final_name.
  destruct n as [|c n]; [contradiction|].
  rewrite (sanitize_word (c :: n) Hne Hw). reflexivity.
Qed.

(** C10: the cleaning that [process_video] applies to the name changes
    nothing on a name that [find_first_name] returns, so the output file is
    named after the name exactly as it was extracted, with [.mp3] added. *)
Theorem sanitize_keeps_returned_name (t n : text) :
  find_first_name t = Ret (Some n) ->
  sanitize n = Ret n
  /\ final_name (Some n) = Ret (string_of_list_ascii n +:+ ".mp3").
Proof.
  intros H.
  destruct (returned_name_facts t n H) as (Hw & _ & _ & Hlen & _).
  assert (Hne : n <> []) by (intros ->; simpl in Hlen; lia).
  split; [apply sanitize_word|apply final_name_word]; assumption.
Qed.

Lemma sanitize_keeps_returned_name_witness :
  sanitize (str "Alice") = Ret (str "Alice")
  /\ final_name (Some (str "Alice")) = Ret "Alice.mp3".
Proof.
  apply (sanitize_keeps_returned_name (str "Hi here, my name is Alice") (str "Alice")).
  vm_compute. reflexivity.
Defined.

(** The cleaning does change other strings. *)
Example sanitize_changes_other_strings :
  sanitize (str "Anne-Marie!") = Ret (str "Anne-Marie")
  /\ sanitize (str "a -- b") = Ret (str "a").
Proof. vm_compute. auto. Qed.

(** ** process_video *)

Lemma upper_not_t (c : ascii) : isupper c = true -> c <> "t"%char.
Proof. intros H ->. vm_compute in H. discriminate. Qed.

(** The target of a run is never its own temporary file. *)
Lemma final_name_not_temp (t : text) (name : option text) (final_mp3 stem : string) :
  find_first_name t = Ret name ->
  final_name name = Ret final_mp3 ->
  final_mp3 <> temp_name stem.
Proof.
  intros Hf Hn. destruct name as [n|].
  - destruct (returned_name_facts t n Hf) as (Hw & _ & Hu & Hlen & _).
    assert (Hne : n <> []) by (intros ->; simpl in Hlen; lia).
    rewrite (final_name_word n Hne Hw) in Hn. injection Hn as <-.
    destruct n as [|c n]; [contradiction|].
    cbn in Hu. unfold temp_name. cbn. intros [= Hc _].
    exact (upper_not_t c Hu Hc).
  - cbn in Hn. injection Hn as <-. unfold temp_name. cbn. discriminate.
Qed.

(** C7: when the target name, [<name>.mp3] or [audio.mp3], is already
    taken, [process_video] keeps the file that is there, removes the
    temporary file, changes no other file and returns [True], which [main]
    counts as a success and not as a failure. *)
Theorem existing_target_is_kept
    (stem : string) (audio : data) (transcription : text) (fs : filesystem)
    (name : option text) (final_mp3 : string) (d : data) :
  find_first_name transcription = Ret name ->
  final_name name = Ret final_mp3 ->
  fs !! final_mp3 = Some d ->
  exists fs',
    process_video stem (Extracted audio) (Transcribed transcription) fs = (Ret true, fs')
    /\ fs' !! final_mp3 = Some d
    /\ fs' !! temp_name stem = None
    /\ (forall f, f <> temp_name stem -> fs' !! f = fs !! f)
    /\ (forall tl,
          fst (main_loop [(stem, Extracted audio, Transcribed transcription)] tl fs)
          = {| successful := successful tl + 1; skipped := skipped tl;
               failed := failed tl |}).
Proof.
  intros Hf Hn Hd.
  pose proof (final_name_not_temp transcription name final_mp3 stem Hf Hn) as Hne.
  assert (Hrun : process_video stem (Extracted audio) (Transcribed transcription) fs
                 = (Ret true, delete (temp_name stem) (<[temp_name stem := audio]> fs))).
  { unfold process_video, finalize. cbn zeta. rewrite Hf, Hn.
    rewrite lookup_insert_ne by congruence. rewrite Hd.
    unfold unlink_if_exists. rewrite lookup_insert_eq. reflexivity. }
  exists (delete (temp_name stem) (<[temp_name stem := audio]> fs)).
  split; [exact Hrun|]. split.
  { rewrite lookup_delete_ne by congruence. rewrite lookup_insert_ne by congruence. exact Hd. }
  split; [apply lookup_delete_eq|]. split.
  { intros f Hfne. rewrite lookup_delete_ne by congruence.
    apply lookup_insert_ne. congruence. }
  intros tl. cbn [main_loop]. rewrite Hrun. reflexivity.
Qed.

Lemma existing_target_is_kept_witness :
  exists fs',
    process_video "clip" (Extracted (str "new audio"))
      (Transcribed (str "Hi here, my name is Alice")) {["Alice.mp3" := str "old audio"]}
    = (Ret true, fs')
    /\ fs' !! "Alice.mp3" = Some (str "old audio")
    /\ fs' !! temp_name "clip" = None
    /\ (forall f, f <> temp_name "clip" ->
          fs' !! f = ({["Alice.mp3" := str "old audio"]} : filesystem) !! f)
    /\ (forall tl,
          fst (main_loop [("clip", Extracted (str "new audio"),
                           Transcribed (str "Hi here, my name is Alice"))] tl
                 {["Alice.mp3" := str "old audio"]})
          = {| successful := successful tl + 1; skipped := skipped tl;
               failed := failed tl |}).
Proof.
  apply (existing_target_is_kept "clip" (str "new audio")
           (str "Hi here, my name is Alice") {["Alice.mp3" := str "old audio"]}
           (Some (str "Alice")) "Alice.mp3" (str "old audio")).
  - vm_compute. reflexivity.
  - vm_compute. reflexivity.
  - apply lookup_singleton_eq.
Defined.

(** ** The scenario of the introduction *)

Lemma find_first_name_sarah_johnson (rest : text) :
  find_first_name (str "Hey everyone, Sarah Johnson here, and today I'll be" ++ rest)
  = Ret (Some (str "Johnson")).
Proof.
  unfold find_first_name. cbn zeta. rewrite intro_of_take, take_app.
  change (take 500 (str "Hey everyone, Sarah Johnson here, and today I'll be"))
    with (str "Hey everyone, Sarah Johnson here, and today I'll be").
  generalize (take (500 - length (str "Hey everyone, Sarah Johnson here, and today I'll be"))
                rest).
  intros rest'. unfold priority_patterns. cbn [try_patterns].
  assert (H : try_pattern
                (str "Hey everyone, Sarah Johnson here, and today I'll be" ++ rest')
                (pat_here, 0) = Ret (Some (str "Johnson"))).
  { vm_compute. reflexivity. }
  rewrite H. reflexivity.
Qed.

(** For this transcript the extractor does not return [Sarah]. *)
Lemma sarah_is_not_returned :
  find_first_name (str "Hey everyone, Sarah Johnson here, and today I'll be...")
  <> Ret (Some (str "Sarah")).
Proof.
  change (str "Hey everyone, Sarah Johnson here, and today I'll be...")
    with (str "Hey everyone, Sarah Johnson here, and today I'll be" ++ str "...").
  rewrite (find_first_name_sarah_johnson (str "...")). discriminate.
Qed.

(** C1: for a transcript that begins [Hey everyone, Sarah Johnson here, and
    today I'll be], the pattern [<Name> here] captures the word right
    before [here]: [find_first_name] returns [Johnson], and when no file
    of that name exists [process_video] renames the extracted audio to
    [Johnson.mp3]. *)
Theorem sarah_johnson_here
    (rest : text) (stem : string) (audio : data) (fs : filesystem) :
  fs !! "Johnson.mp3" = None ->
  find_first_name (str "Hey everyone, Sarah Johnson here, and today I'll be" ++ rest)
  = Ret (Some (str "Johnson"))
  /\ final_name (Some (str "Johnson")) = Ret "Johnson.mp3"
  /\ exists fs',
       process_video stem (Extracted audio)
         (Transcribed (str "Hey everyone, Sarah Johnson here, and today I'll be" ++ rest))
         fs = (Ret true, fs')
       /\ fs' !! "Johnson.mp3" = Some audio
       /\ fs' !! temp_name stem = None.
Proof.
  intros Hfree.
  pose proof (find_first_name_sarah_johnson rest) as Hf.
  assert (Hn : final_name (Some (str "Johnson")) = Ret "Johnson.mp3")
    by (vm_compute; reflexivity).
  pose proof (final_name_not_temp _ _ _ stem Hf Hn) as Hne.
  split; [exact Hf|]. split; [exact Hn|].
  exists (<["Johnson.mp3" := audio]>
            (delete (temp_name stem) (<[temp_name stem := audio]> fs))).
  split.
  - unfold process_video, finalize. cbn zeta. rewrite Hf, Hn.
    rewrite lookup_insert_ne by congruence. rewrite Hfree.
    unfold rename. rewrite lookup_insert_eq. reflexivity.
  - split; [apply lookup_insert_eq|].
    rewrite lookup_insert_ne by congruence. apply lookup_delete_eq.
Qed.

Lemma sarah_johnson_here_witness :
  find_first_name
    (str "Hey everyone, Sarah Johnson here, and today I'll be" ++ str "...")
  = Ret (Some (str "Johnson"))
  /\ final_name (Some (str "Johnson")) = Ret "Johnson.mp3"
  /\ exists fs',
       process_video "intro" (Extracted (str "audio"))
         (Transcribed
            (str "Hey everyone, Sarah Johnson here, and today I'll be" ++ str "..."))
         ∅ = (Ret true, fs')
       /\ fs' !! "Johnson.mp3" = Some (str "audio")
       /\ fs' !! temp_name "intro" = None.
Proof.
  apply (sarah_johnson_here (str "...") "intro" (str "audio") ∅).
  apply lookup_empty.
Defined.

(** ** transcribe_audio *)

(** [PATH] is not restored when the call returns, and the directory stays
    when the failure comes after the import of whisper failed. *)
Lemma path_is_not_restored :
  path_env (snd (transcribe_audio (all_good "/tmp/tmpx") world0))
  = Some "/tmp/tmpx:/usr/bin"
  /\ path_env (snd (transcribe_audio (all_good "/tmp/tmpx") world0)) <> path_env world0
  /\ fst (transcribe_audio (load_fails_after_install "/tmp/tmpx") world0)
     = Raise ExternalError
  /\ "/tmp/tmpx" ∈ dirs (snd (transcribe_audio (load_fails_after_install "/tmp/tmpx") world0)).
Proof.
  split; [reflexivity|]. split; [discriminate|]. split; [reflexivity|].
  cbn. set_solver.
Qed.

Lemma clean_up_removes (d : string) (w : world) :
  d ∉ dirs w ->
  clean_up (Some d) {| dirs := {[d]} ∪ dirs w; path_env := path_env w |} = w
  /\ forall p, dirs (clean_up (Some d) {| dirs := {[d]} ∪ dirs w; path_env := p |})
               = dirs w.
Proof.
  intros Hfresh.
  assert (Hd : ({[d]} ∪ dirs w) ∖ {[d]} = dirs w) by set_solver.
  split.
  - unfold clean_up. cbn. rewrite bool_decide_eq_true_2 by set_solver.
    rewrite Hd. destruct w. reflexivity.
  - intros p. unfold clean_up. cbn. rewrite bool_decide_eq_true_2 by set_solver.
    cbn. exact Hd.
Qed.

(** C8: when [transcribe_audio] returns the text, also after the import of
    whisper first failed and the package was installed, and when the first
    attempt raises anything but [ImportError], the temporary directory that
    the set-up created is removed: the directories are those from before
    the call.  [PATH] stays as the set-up left it. *)
Theorem temp_dir_is_removed (sc : scenario) (w : world) (d : string) :
  fst (set_up (setup sc) w) = Some d ->
  d ∉ dirs w ->
  (exists t, fst (transcribe_audio sc w) = Ret t)
  \/ (exists e, use_whisper (import_whisper sc) (load_model sc) (transcribe sc)
                  (result_text sc) = Raise e
                /\ e <> ImportError) ->
  dirs (snd (transcribe_audio sc w)) = dirs w
  /\ path_env (snd (transcribe_audio sc w)) = path_env (snd (set_up (setup sc) w)).
Proof.
  intros Hd Hfresh Hpath. unfold transcribe_audio in *.
  assert (Hclean : forall p,
             dirs (clean_up (Some d) {| dirs := {[d]} ∪ dirs w; path_env := p |}) = dirs w
             /\ path_env (clean_up (Some d) {| dirs := {[d]} ∪ dirs w; path_env := p |}) = p).
  { intros p. split; [apply clean_up_removes; exact Hfresh|].
    unfold clean_up. cbn. destruct (bool_decide _); reflexivity. }
  assert (Hsetup : exists p, set_up (setup sc) w
                             = (Some d, {| dirs := {[d]} ∪ dirs w; path_env := p |})).
  { destruct (setup sc); cbn in Hd |- *; try discriminate;
      injection Hd as ->; eauto. }
  destruct Hsetup as [p Hs]. rewrite Hs in *. cbn [fst snd] in *.
  destruct (use_whisper (import_whisper sc) (load_model sc) (transcribe sc) (result_text sc))
    as [t|e] eqn:Hfirst.
  - apply Hclean.
  - destruct e; try apply Hclean.
    destruct Hpath as [[t Ht]|(e & [= <-] & Hne)]; [|contradiction].
    destruct (pip_install sc); [|discriminate].
    destruct (use_whisper (import_whisper' sc) (load_model' sc) (transcribe' sc)
                (result_text sc)); [apply Hclean|discriminate].
Qed.

Lemma temp_dir_is_removed_witness :
  dirs (snd (transcribe_audio (all_good "/tmp/tmpx") world0)) = dirs world0
  /\ path_env (snd (transcribe_audio (all_good "/tmp/tmpx") world0))
     = path_env (snd (set_up (setup (all_good "/tmp/tmpx")) world0)).
Proof.
  apply (temp_dir_is_removed (all_good "/tmp/tmpx") world0 "/tmp/tmpx").
  - reflexivity.
  - cbn. set_solver.
  - left. exists (str "Hello"). reflexivity.
Defined.

(** ** A name at the very start of the transcript *)

Lemma letter_lower (c : ascii) : is_letter (lower_char c) = is_letter c.
Proof. by_cases_on_char c. Qed.

Lemma space_not_letter (c : ascii) : isspace c = true -> is_letter c = false.
Proof. by_cases_on_char c. Qed.

Lemma plus_loop_stop {R} ic cs (k : option ascii -> nat -> text -> option R) pos s :
  from_option (cs_match ic cs) false (head s) = false -> plus_loop ic cs k pos s = None.
Proof. destruct s as [|c s]; [reflexivity|]. cbn. intros ->. reflexivity. Qed.

(** A repetition takes the whole run when what follows then matches. *)
Lemma plus_loop_greedy {R} ic cs (k : option ascii -> nat -> text -> option R) c w pos s r :
  Forall (fun x => cs_match ic cs x = true) (c :: w) ->
  from_option (cs_match ic cs) false (head s) = false ->
  k (Some (List.last w c)) (pos + S (length w)) s = Some r ->
  plus_loop ic cs k pos ((c :: w) ++ s) = Some r.
Proof.
  revert c pos. induction w as [|c' w IH]; intros c pos Hall Hstop Hk.
  - cbn [app plus_loop]. inversion Hall as [|? ? Hc _]; subst. rewrite Hc.
    rewrite (plus_loop_stop _ _ _ _ _ Hstop). cbn in Hk.
    replace (S pos) with (pos + 1) by lia. exact Hk.
  - inversion Hall as [|? ? Hc Hall']; subst.
    change ((c :: c' :: w) ++ s) with (c :: ((c' :: w) ++ s)).
    cbn [plus_loop]. rewrite Hc.
    rewrite (IH c' (S pos) Hall' Hstop); [reflexivity|].
    rewrite last_cons in Hk. cbn [length] in Hk.
    replace (S pos + S (length w)) with (pos + S (S (length w))) by lia. exact Hk.
Qed.

Lemma lower_here_letter (h x : ascii) :
  lower_char h = x -> is_letter x = true -> is_letter h = true.
Proof. intros <- H. rewrite letter_lower in H. exact H. Qed.

(** The first pattern matches at position 0 a text that starts with a word
    of letters, whitespace and [here] in any case, when no word character
    follows. *)
Lemma name_here_matches (c c' : ascii) (w ws : text) (sp h1 h2 h3 h4 : ascii) (rest : text) :
  letters (c :: c' :: w) ->
  Forall (fun x => isspace x = true) (sp :: ws) ->
  lower [h1; h2; h3; h4] = str "here" ->
  from_option is_word false (head rest) = false ->
  exists m,
    re_search pat_here true ((c :: c' :: w) ++ (sp :: ws) ++ [h1; h2; h3; h4] ++ rest)
    = Some m
    /\ group ((c :: c' :: w) ++ (sp :: ws) ++ [h1; h2; h3; h4] ++ rest) m 1
       = c :: c' :: w.
Proof.
  intros Hl Hsp Hh Hrest.
  injection Hh as Hh1 Hh2 Hh3 Hh4.
  inversion Hl as [|? ? Hc Hl']; subst.
  inversion Hsp as [|? ? Hsp1 _]; subst.
  pose proof (lower_here_letter h1 _ Hh1 eq_refl) as Hl1.
  pose proof (lower_here_letter h4 _ Hh4 eq_refl) as Hl4.
  set (subj := (c :: c' :: w) ++ (sp :: ws) ++ [h1; h2; h3; h4] ++ rest).
  assert (Hrun :
    run true pat_here {| g_open := None; g_close := None |} None 0 subj
    = Some (S (S (S (S (1 + S (length w) + S (length ws))))),
            {| g_open := Some 0; g_close := Some (1 + S (length w)) |})).
  { subst subj.
    change pat_here with
      [GroupOpen; OneOf AZ; Plus az; GroupClose; Plus Whitespace;
       Lit "h"; Lit "e"; Lit "r"; Lit "e"; Boundary].
    change ((c :: c' :: w) ++ (sp :: ws) ++ [h1; h2; h3; h4] ++ rest)
      with (c :: ((c' :: w) ++ ((sp :: ws) ++ (h1 :: h2 :: h3 :: h4 :: rest)))).
    cbn [run g_open g_close]. rewrite AZ_ignorecase, Hc.
    apply plus_loop_greedy.
    - eapply Forall_impl; [exact Hl'|]. intros x Hx. rewrite az_ignorecase. exact Hx.
    - cbn [app head from_option]. rewrite az_ignorecase. apply space_not_letter. exact Hsp1.
    - cbn [run g_open g_close]. apply plus_loop_greedy.
      + exact Hsp.
      + cbn [head from_option cs_match]. apply letter_not_space. exact Hl1.
      + cbn [run]. unfold lit_match.
        rewrite !bool_decide_eq_true_2
          by (rewrite ?Hh1, ?Hh2, ?Hh3, ?Hh4; reflexivity).
        unfold at_boundary. cbn [from_option].
        rewrite (letter_is_word h4 Hl4), Hrest. reflexivity. }
  eexists. split.
  - unfold re_search. destruct subj as [|x subj'] eqn:E; [discriminate|].
    cbn [search_from]. rewrite Hrun. reflexivity.
  - cbn [group m_marks g_open g_close].
    exact (slice_spec subj 0 (c :: c' :: w) _ eq_refl).
Qed.

Lemma head_take_word (n : nat) (rest : text) :
  from_option is_word false (head rest) = false ->
  from_option is_word false (head (take n rest)) = false.
Proof. destruct n, rest; auto. Qed.

(** The same for a name at the start: a transcript that starts with a capitalized
    word of more than two letters that is no stopword, then whitespace and
    [here] in any case, not followed by a word character, yields that word. *)
Lemma name_here_at_start (c c' : ascii) (w ws : text) (sp h1 h2 h3 h4 : ascii) (rest : text) :
  isupper c = true ->
  letters (c :: c' :: w) ->
  w <> [] ->
  is_skip (lower (c :: c' :: w)) = false ->
  Forall (fun x => isspace x = true) (sp :: ws) ->
  lower [h1; h2; h3; h4] = str "here" ->
  from_option is_word false (head rest) = false ->
  length ((c :: c' :: w) ++ (sp :: ws) ++ [h1; h2; h3; h4]) <= 500 ->
  find_first_name ((c :: c' :: w) ++ (sp :: ws) ++ [h1; h2; h3; h4] ++ rest)
  = Ret (Some (c :: c' :: w)).
Proof.
  intros Hu Hl Hw Hs Hsp Hh Hrest Hlen.
  set (n := 500 - length ((c :: c' :: w) ++ (sp :: ws) ++ [h1; h2; h3; h4])).
  assert (Hintro :
    intro_of ((c :: c' :: w) ++ (sp :: ws) ++ [h1; h2; h3; h4] ++ rest)
    = (c :: c' :: w) ++ (sp :: ws) ++ [h1; h2; h3; h4] ++ take n rest).
  { rewrite intro_of_take.
    replace ((c :: c' :: w) ++ (sp :: ws) ++ [h1; h2; h3; h4] ++ rest)
      with (((c :: c' :: w) ++ (sp :: ws) ++ [h1; h2; h3; h4]) ++ rest)
      by (rewrite <- !app_assoc; reflexivity).
    rewrite take_app, take_ge by exact Hlen.
    fold n. rewrite <- !app_assoc. reflexivity. }
  destruct (name_here_matches c c' w ws sp h1 h2 h3 h4 (take n rest) Hl Hsp Hh
              (head_take_word n rest Hrest)) as (m & Hm & Hg).
  rewrite <- Hintro in Hm, Hg.
  apply (here_capture_returned _ m _ Hm Hg).
  - exact Hu.
  - destruct w; [contradiction|]. cbn [length]. lia.
  - exact Hs.
Qed.

Example name_here_at_start_example :
  find_first_name (str "Maria  HERE. And now the news")
  = Ret (Some (str "Maria")).
Proof.
  apply (name_here_at_start "M" "a" (str "ria") [" "%char] " " "H" "E" "R" "E"
           (str ". And now the news")).
  - reflexivity.
  - repeat constructor.
  - discriminate.
  - vm_compute. reflexivity.
  - repeat constructor.
  - reflexivity.
  - reflexivity.
  - vm_compute. lia.
Qed.

(** * Further properties of the code *)

(** ** find_first_name: exceptions, priorities, provenance *)

(** X1: [find_first_name] never raises.  The only statement that could,
    [name_part.split()[0]] of line 161, always finds a first word, a
    matched group being two letters at least. *)
Theorem find_first_name_never_raises (t : text) :
  (exists o, find_first_name t = Ret o)
  /\ forall e, find_first_name t <> Raise e.
Proof.
  destruct (find_first_name_cases t) as [[_ H]|(name & _ & H & _)];
    rewrite H; split; eauto; discriminate.
Qed.

(** What an iteration of the priority loop returns is group 1 of the match. *)
Lemma try_pattern_returns_group subj p n :
  In p priority_patterns ->
  try_pattern subj p = Ret (Some n) ->
  exists m, re_search (fst p) true subj = Some m /\ n = group subj m 1.
Proof.
  intros Hin H. destruct (re_search (fst p) true subj) as [m|] eqn:Hm.
  - destruct (try_pattern_match subj p m Hin Hm) as (_ & _ & Hp).
    rewrite Hp in H. destruct (valid_name (group subj m 1)); [|discriminate].
    injection H as <-. eauto.
  - unfold try_pattern in H. destruct p as [pattern idx]. cbn [fst] in Hm.
    rewrite Hm in H. discriminate.
Qed.

Lemma try_patterns_returns_group subj ps n :
  (forall p, In p ps -> In p priority_patterns) ->
  try_patterns subj ps = Ret (Some n) ->
  exists p m, In p ps /\ re_search (fst p) true subj = Some m /\ n = group subj m 1.
Proof.
  induction ps as [|p ps IH]; intros Hsub H; [discriminate|].
  cbn [try_patterns] in H.
  destruct (try_pattern subj p) as [[n'|]|e] eqn:Hp; try discriminate.
  - injection H as ->.
    destruct (try_pattern_returns_group subj p n (Hsub p (or_introl eq_refl)) Hp)
      as (m & Hm & Hn).
    exists p, m. split; [left; reflexivity|]. auto.
  - destruct IH as (q & m & Hq & Hm & Hn); [intros q Hq; apply Hsub; right; exact Hq|exact H|].
    exists q, m. split; [right; exact Hq|]. auto.
Qed.

(** X2: the patterns are tried in the order of the list, and the first one
    whose match passes the validation gives the result, wherever the later
    patterns match in the text. *)
Theorem first_valid_pattern_wins
    (t : text) (pre : list (regex * nat)) (p : regex * nat) (post : list (regex * nat))
    (m : rmatch) :
  priority_patterns = pre ++ p :: post ->
  try_patterns (intro_of t) pre = Ret None ->
  re_search (fst p) true (intro_of t) = Some m ->
  valid_name (group (intro_of t) m 1) = true ->
  find_first_name t = Ret (Some (group (intro_of t) m 1)).
Proof.
  intros Hsplit Hpre Hm Hvalid.
  assert (Hin : In p priority_patterns).
  { rewrite Hsplit. apply in_or_app. right. left. reflexivity. }
  destruct (try_pattern_match (intro_of t) p m Hin Hm) as (_ & _ & Hp).
  rewrite Hvalid in Hp.
  unfold find_first_name. cbn zeta.
  rewrite Hsplit, (try_patterns_app _ pre (p :: post) Hpre).
  cbn [try_patterns]. rewrite Hp. reflexivity.
Qed.

Lemma first_valid_pattern_wins_witness :
  find_first_name (str "This is Bob and my name is Alice")
  = Ret (Some (group (intro_of (str "This is Bob and my name is Alice"))
                 {| m_start := 16; m_end := 32;
                    m_marks := {| g_open := Some 27; g_close := Some 32 |} |} 1)).
Proof.
  apply (first_valid_pattern_wins (str "This is Bob and my name is Alice")
           [(pat_here, 0)] (pat_my_name_is, 1)
           [(pat_i_am, 1); (pat_im, 1); (pat_this_is, 1)]).
  - reflexivity.
  - vm_compute. reflexivity.
  - vm_compute. reflexivity.
  - vm_compute. reflexivity.
Defined.

Example pattern_order_beats_text_order :
  find_first_name (str "This is Bob and my name is Alice") = Ret (Some (str "Alice")).
Proof. vm_compute. reflexivity. Qed.

Lemma split_from_sublist (s cur w : text) :
  w ∈ split_from cur s -> w `sublist_of` rev cur ++ s.
Proof.
  revert cur. induction s as [|c s IH]; intros cur Hw; cbn [split_from] in Hw.
  - destruct (nonempty cur); [|inversion Hw].
    apply list_elem_of_singleton in Hw as ->. rewrite app_nil_r. reflexivity.
  - destruct (isspace c).
    + assert (Htail : w ∈ split_from [] s -> w `sublist_of` rev cur ++ c :: s).
      { intros H. apply sublist_inserts_l, sublist_cons, (IH [] H). }
      destruct (nonempty cur); [|auto].
      apply elem_of_cons in Hw as [->|Hw]; [|auto].
      apply sublist_inserts_r. reflexivity.
    + specialize (IH (c :: cur) Hw). cbn [rev] in IH.
      rewrite <- app_assoc in IH. exact IH.
Qed.

Lemma slice_sublist (i j : nat) (s : text) : slice i j s `sublist_of` s.
Proof.
  unfold slice. etransitivity; [apply sublist_take|apply sublist_drop].
Qed.

(** X3: a returned name is made of characters of the first 500 characters
    of the transcript, in their order and in their case: the extractor
    invents nothing. *)
Theorem returned_name_comes_from_text (t n : text) :
  find_first_name t = Ret (Some n) ->
  n `sublist_of` take 500 t /\ length n <= 500.
Proof.
  intros H.
  assert (Hsub : n `sublist_of` take 500 t).
  { destruct (find_first_name_cases t) as [[_ Hf]|(name & Hloop & Hf & _)].
    - rewrite Hf in H. injection H as H.
      apply fallback_scan_Some in H as (i & w & _ & _ & Hw & _ & _ & _ & -> & _).
      apply list_elem_of_lookup_2, split_from_sublist in Hw. cbn in Hw.
      etransitivity; [apply sublist_filter|].
      etransitivity; [exact Hw|].
      rewrite <- (take_200_intro t), intro_of_take. apply sublist_take.
    - rewrite Hf in H. injection H as <-.
      apply try_patterns_returns_group in Hloop as (p & m & _ & _ & ->); [|auto].
      rewrite <- intro_of_take. unfold group.
      destruct (g_open (m_marks m)), (g_close (m_marks m));
        try apply slice_sublist; apply sublist_nil_l. }
  split; [exact Hsub|].
  apply sublist_length in Hsub. rewrite length_take in Hsub. lia.
Qed.

Lemma returned_name_comes_from_text_witness :
  str "R2D2" `sublist_of` take 500 (str "R2-D2, Unit5 reporting") /\ length (str "R2D2") <= 500.
Proof.
  apply (returned_name_comes_from_text (str "R2-D2, Unit5 reporting") (str "R2D2")).
  vm_compute. reflexivity.
Defined.

Lemma first_some_ext {A B} (f g : A -> option B) (l : list A) :
  (forall i x, l !! i = Some x -> f x = g x) -> first_some f l = first_some g l.
Proof.
  induction l as [|a l IH]; intros H; [reflexivity|].
  cbn [first_some]. rewrite (H 0 a eq_refl).
  destruct (g a); [reflexivity|]. apply IH. intros i x Hl. apply (H (S i)). exact Hl.
Qed.

Lemma take_16_lookup (ws1 ws2 : list text) (k : nat) :
  take 16 ws1 = take 16 ws2 -> k < 16 -> ws1 !! k = ws2 !! k.
Proof.
  intros H Hk.
  rewrite <- (lookup_take_lt ws1 16 k Hk), <- (lookup_take_lt ws2 16 k Hk), H.
  reflexivity.
Qed.

(** The scan reads the first 16 words and no more. *)
Lemma fallback_step_16 (ws1 ws2 : list text) (i : nat) (w : text) :
  take 16 ws1 = take 16 ws2 -> i < 15 ->
  fallback_step ws1 (i, w) = fallback_step ws2 (i, w).
Proof.
  intros H Hi.
  assert (Hl : ws1 !! (i + 1) = ws2 !! (i + 1)) by (apply take_16_lookup; [exact H|lia]).
  unfold fallback_step. cbn zeta.
  assert (Hlen : (i + 1 <? length ws1) = (i + 1 <? length ws2)).
  { destruct (i + 1 <? length ws2) eqn:E.
    - apply Nat.ltb_lt. apply Nat.ltb_lt in E.
      apply lookup_lt_is_Some. rewrite Hl. apply lookup_lt_is_Some. exact E.
    - apply Nat.ltb_ge. apply Nat.ltb_ge in E.
      apply lookup_ge_None. rewrite Hl. apply lookup_ge_None. exact E. }
  rewrite Hlen, !list_lookup_total_alt, Hl. reflexivity.
Qed.

(** X4: the positional scan depends on the first 16 words of the first 200
    characters only (the first 15 and the follower of the 15th): what comes
    after them never changes its result. *)
Theorem fallback_scan_reads_16_words (t1 t2 : text) :
  take 16 (split (take 200 t1)) = take 16 (split (take 200 t2)) ->
  fallback_scan (intro_of t1) = fallback_scan (intro_of t2).
Proof.
  intros H. unfold fallback_scan. cbn zeta. rewrite !take_200_intro.
  set (ws1 := split (take 200 t1)) in *. set (ws2 := split (take 200 t2)) in *.
  assert (H15 : take 15 ws1 = take 15 ws2).
  { replace (take 15 ws1) with (take 15 (take 16 ws1)) by (rewrite take_take; reflexivity).
    rewrite H, take_take. reflexivity. }
  rewrite <- H15. apply first_some_ext.
  intros i [j w] Hlook. apply scan_lookup in Hlook as (-> & Hi & _).
  apply fallback_step_16; assumption.
Qed.

Lemma fallback_scan_reads_16_words_witness :
  fallback_scan
    (intro_of (str "a b c d e f g h i j k l m n Ann Lee Bob Fox"))
  = fallback_scan
      (intro_of (str "a b c d e f g h i j k l m n Ann Lee and others")).
Proof.
  apply fallback_scan_reads_16_words. vm_compute. reflexivity.
Defined.

(** ** process_video: what happens to the files *)

Lemma unlink_if_exists_delete (p : string) (fs : filesystem) :
  unlink_if_exists p fs = delete p fs.
Proof.
  unfold unlink_if_exists. destruct (fs !! p) eqn:H; [reflexivity|].
  symmetry. apply delete_id. exact H.
Qed.

(** Every transcript has a target name, which is no temporary name. *)
Lemma target_exists (t : text) :
  exists name final_mp3,
    find_first_name t = Ret name /\ final_name name = Ret final_mp3
    /\ forall stem, final_mp3 <> temp_name stem.
Proof.
  destruct (find_first_name_total t) as [name Hf].
  assert (Hn : exists final_mp3, final_name name = Ret final_mp3).
  { destruct name as [n|]; [|eexists; reflexivity].
    destruct (returned_name_facts t n Hf) as (Hw & _ & _ & Hlen & _).
    eexists. apply final_name_word; [intros ->; simpl in Hlen; lia|exact Hw]. }
  destruct Hn as [final_mp3 Hn]. exists name, final_mp3.
  split; [exact Hf|]. split; [exact Hn|].
  intros stem. exact (final_name_not_temp t name final_mp3 stem Hf Hn).
Qed.

Lemma process_video_transcribed stem audio t fs name final_mp3 :
  find_first_name t = Ret name ->
  final_name name = Ret final_mp3 ->
  process_video stem (Extracted audio) (Transcribed t) fs
  = (Ret true,
     match fs !! final_mp3 with
     | Some _ => delete (temp_name stem) fs
     | None => <[final_mp3 := audio]> (delete (temp_name stem) fs)
     end).
Proof.
  intros Hf Hn.
  pose proof (final_name_not_temp t name final_mp3 stem Hf Hn) as Hne.
  unfold process_video, finalize. cbn zeta. rewrite Hf, Hn.
  rewrite lookup_insert_ne by congruence.
  destruct (fs !! final_mp3).
  - rewrite unlink_if_exists_delete, delete_insert_eq. reflexivity.
  - unfold rename. rewrite lookup_insert_eq, delete_insert_eq. reflexivity.
Qed.

Lemma process_video_failed stem partial audio tr fs :
  process_video stem (ExtractFailed partial) tr fs
  = (Ret false, delete (temp_name stem) fs)
  /\ process_video stem (Extracted audio) TranscribeFailed fs
     = (Ret false, delete (temp_name stem) fs).
Proof.
  unfold process_video. cbn zeta. rewrite !unlink_if_exists_delete.
  split; [|rewrite delete_insert_eq; reflexivity].
  destruct partial; [rewrite delete_insert_eq|]; reflexivity.
Qed.

(** The two shapes of the directory after a run: the temporary file is
    removed, and at most one file is added, under a free name that is no
    temporary name. *)
Lemma process_video_cases stem ex tr fs :
  exists b fs',
    process_video stem ex tr fs = (Ret b, fs')
    /\ (fs' = delete (temp_name stem) fs
        \/ exists final_mp3 audio,
             (forall s, final_mp3 <> temp_name s)
             /\ fs !! final_mp3 = None
             /\ fs' = <[final_mp3 := audio]> (delete (temp_name stem) fs)).
Proof.
  destruct ex as [audio|partial].
  - destruct tr as [t|].
    + destruct (target_exists t) as (name & final_mp3 & Hf & Hn & Hne).
      rewrite (process_video_transcribed stem audio t fs name final_mp3 Hf Hn).
      eexists _, _. split; [reflexivity|].
      destruct (fs !! final_mp3) eqn:E; [left; reflexivity|].
      right. exists final_mp3, audio. auto.
    + rewrite (proj2 (process_video_failed stem None audio TranscribeFailed fs)).
      eexists _, _. split; [reflexivity|]. left. reflexivity.
  - rewrite (proj1 (process_video_failed stem partial [] tr fs)).
    eexists _, _. split; [reflexivity|]. left. reflexivity.
Qed.

Lemma process_video_preserves stem ex tr fs f d :
  f <> temp_name stem -> fs !! f = Some d ->
  snd (process_video stem ex tr fs) !! f = Some d.
Proof.
  intros Hne Hd.
  destruct (process_video_cases stem ex tr fs) as (b & fs' & -> & [->|Hadd]); cbn [snd].
  - rewrite lookup_delete_ne by congruence. exact Hd.
  - destruct Hadd as (final_mp3 & audio & _ & Hfree & ->).
    rewrite lookup_insert_ne by congruence.
    rewrite lookup_delete_ne by congruence. exact Hd.
Qed.

Lemma process_video_no_new_temp stem ex tr fs s :
  fs !! temp_name s = None -> snd (process_video stem ex tr fs) !! temp_name s = None.
Proof.
  intros Hs.
  assert (Hdel : delete (temp_name stem) fs !! temp_name s = None).
  { destruct (decide (temp_name stem = temp_name s)) as [->|Hne];
      [apply lookup_delete_eq|]. rewrite lookup_delete_ne by exact Hne. exact Hs. }
  destruct (process_video_cases stem ex tr fs) as (b & fs' & -> & [->|Hadd]); cbn [snd].
  - exact Hdel.
  - destruct Hadd as (final_mp3 & audio & Hnt & _ & ->).
    rewrite lookup_insert_ne by apply Hnt. exact Hdel.
Qed.

Lemma process_video_removes_temp stem ex tr fs :
  snd (process_video stem ex tr fs) !! temp_name stem = None.
Proof.
  destruct (process_video_cases stem ex tr fs) as (b & fs' & -> & [->|Hadd]); cbn [snd].
  - apply lookup_delete_eq.
  - destruct Hadd as (final_mp3 & audio & Hnt & _ & ->).
    rewrite lookup_insert_ne by apply Hnt. apply lookup_delete_eq.
Qed.

(** X5: [process_video] always returns [True] or [False]: whatever the
    extraction and the transcription do, neither the split of the name nor
    the rename of the temporary file raises. *)
Theorem process_video_never_raises
    (stem : string) (ex : extract_outcome) (tr : transcribe_outcome) (fs : filesystem) :
  exists b, fst (process_video stem ex tr fs) = Ret b.
Proof.
  destruct (process_video_cases stem ex tr fs) as (b & fs' & -> & _). eauto.
Qed.

(** X6: after [process_video] the temporary file [temp_audio_<stem>.mp3] is
    gone on every path, also one that was there before the call. *)
Theorem temp_file_never_remains
    (stem : string) (ex : extract_outcome) (tr : transcribe_outcome) (fs : filesystem) :
  snd (process_video stem ex tr fs) !! temp_name stem = None.
Proof. exact (process_video_removes_temp stem ex tr fs). Qed.

(** X7: [process_video] never removes or changes a file that was there
    before the call, the temporary file apart. *)
Theorem other_files_are_kept
    (stem : string) (ex : extract_outcome) (tr : transcribe_outcome) (fs : filesystem)
    (f : string) (d : data) :
  f <> temp_name stem ->
  fs !! f = Some d ->
  snd (process_video stem ex tr fs) !! f = Some d.
Proof. exact (process_video_preserves stem ex tr fs f d). Qed.

Lemma other_files_are_kept_witness :
  snd (process_video "clip" (Extracted (str "new")) (Transcribed (str "my name is Alice"))
         {["notes.txt" := str "keep me"]}) !! "notes.txt"
  = Some (str "keep me").
Proof.
  apply other_files_are_kept.
  - discriminate.
  - apply lookup_singleton_eq.
Defined.

(** X8: when the extraction or the transcription fails, [process_video]
    returns [False] and leaves the directory as it was, without the
    temporary file: no output file is made. *)
Theorem failed_run_makes_no_file
    (stem : string) (partial : option data) (audio : data) (tr : transcribe_outcome)
    (fs : filesystem) :
  process_video stem (ExtractFailed partial) tr fs
  = (Ret false, delete (temp_name stem) fs)
  /\ process_video stem (Extracted audio) TranscribeFailed fs
     = (Ret false, delete (temp_name stem) fs).
Proof. exact (process_video_failed stem partial audio tr fs). Qed.

(** X9: when the target name is free, [process_video] returns [True] and
    the directory is the one from before with the temporary file removed
    and the extracted audio stored under the target name. *)
Theorem free_target_gets_the_audio
    (stem : string) (audio : data) (t : text) (fs : filesystem)
    (name : option text) (final_mp3 : string) :
  find_first_name t = Ret name ->
  final_name name = Ret final_mp3 ->
  fs !! final_mp3 = None ->
  process_video stem (Extracted audio) (Transcribed t) fs
  = (Ret true, <[final_mp3 := audio]> (delete (temp_name stem) fs)).
Proof.
  intros Hf Hn Hfree.
  rewrite (process_video_transcribed stem audio t fs name final_mp3 Hf Hn), Hfree.
  reflexivity.
Qed.

Lemma free_target_gets_the_audio_witness :
  process_video "clip" (Extracted (str "sound"))
    (Transcribed (str "Um, okay, let's get started with the project overview.")) ∅
  = (Ret true, <["audio.mp3" := str "sound"]> (delete (temp_name "clip") ∅)).
Proof.
  apply (free_target_gets_the_audio "clip" (str "sound")
           (str "Um, okay, let's get started with the project overview.") ∅ None).
  - vm_compute. reflexivity.
  - reflexivity.
  - apply lookup_empty.
Defined.

(** X10: processing the same video again changes nothing: after a run that
    got a transcript, a second run with the same transcript is a skip that
    returns [True] and leaves the directory exactly as the first run left
    it, whatever audio the second extraction produced. *)
Theorem second_run_is_a_skip
    (stem : string) (audio1 audio2 : data) (t : text) (fs : filesystem) :
  process_video stem (Extracted audio2) (Transcribed t)
    (snd (process_video stem (Extracted audio1) (Transcribed t) fs))
  = (Ret true, snd (process_video stem (Extracted audio1) (Transcribed t) fs)).
Proof.
  destruct (target_exists t) as (name & final_mp3 & Hf & Hn & Hne).
  pose proof (process_video_removes_temp stem (Extracted audio1) (Transcribed t) fs)
    as Htemp.
  rewrite (process_video_transcribed stem audio2 t _ name final_mp3 Hf Hn).
  rewrite (delete_id _ _ Htemp).
  rewrite (process_video_transcribed stem audio1 t fs name final_mp3 Hf Hn). cbn [snd].
  destruct (fs !! final_mp3) eqn:E.
  - rewrite lookup_delete_ne by (apply not_eq_sym, Hne). rewrite E. reflexivity.
  - rewrite lookup_insert_eq. reflexivity.
Qed.

(** ** main: the batch *)

Lemma count_adds_one (r : res bool) (tl : tally) :
  successful (count r tl) + failed (count r tl) = successful tl + failed tl + 1
  /\ skipped (count r tl) = skipped tl.
Proof. destruct r as [[]|e]; cbn; lia. Qed.

(** X11: every video of the batch is counted once, as successful or as
    failed, so a failure never stops the batch; the counter of skipped
    files is never raised. *)
Theorem every_video_is_counted
    (videos : list (string * extract_outcome * transcribe_outcome))
    (tl : tally) (fs : filesystem) :
  successful (fst (main_loop videos tl fs)) + failed (fst (main_loop videos tl fs))
  = successful tl + failed tl + length videos
  /\ skipped (fst (main_loop videos tl fs)) = skipped tl.
Proof.
  revert tl fs. induction videos as [|[[stem ex] tr] videos IH]; intros tl fs.
  - cbn. lia.
  - cbn [main_loop length]. destruct (process_video stem ex tr fs) as [r fs'].
    destruct (IH (count r tl) fs') as [Hsum Hskip].
    destruct (count_adds_one r tl) as [Hone Hsame]. lia.
Qed.

Lemma main_loop_no_new_temp videos tl fs s :
  fs !! temp_name s = None -> snd (main_loop videos tl fs) !! temp_name s = None.
Proof.
  revert tl fs. induction videos as [|[[stem ex] tr] videos IH]; intros tl fs Hs;
    [exact Hs|].
  cbn [main_loop].
  pose proof (process_video_no_new_temp stem ex tr fs s Hs) as H.
  destruct (process_video stem ex tr fs) as [r fs']. apply IH. exact H.
Qed.

(** X12: after the batch no temporary file of a processed video is left. *)
Theorem batch_leaves_no_temp_file
    (videos : list (string * extract_outcome * transcribe_outcome))
    (tl : tally) (fs : filesystem)
    (stem : string) (ex : extract_outcome) (tr : transcribe_outcome) :
  In (stem, ex, tr) videos ->
  snd (main_loop videos tl fs) !! temp_name stem = None.
Proof.
  revert tl fs. induction videos as [|[[stem' ex'] tr'] videos IH]; intros tl fs Hin;
    [destruct Hin|].
  cbn [main_loop].
  pose proof (process_video_removes_temp stem' ex' tr' fs) as Hgone.
  pose proof (fun H => process_video_no_new_temp stem' ex' tr' fs stem H) as Hkeep.
  destruct (process_video stem' ex' tr' fs) as [r fs']. cbn [snd] in *.
  destruct Hin as [[= -> -> ->]|Hin].
  - apply main_loop_no_new_temp. exact Hgone.
  - apply IH. exact Hin.
Qed.

Lemma batch_leaves_no_temp_file_witness :
  snd (main_loop [("a", Extracted (str "x"), TranscribeFailed);
                  ("b", Extracted (str "y"), Transcribed (str "my name is Alice"))]
         {| successful := 0; skipped := 0; failed := 0 |} ∅) !! temp_name "a" = None.
Proof.
  apply (batch_leaves_no_temp_file _ _ _ "a" (Extracted (str "x")) TranscribeFailed).
  left. reflexivity.
Defined.

(** X13: the batch never removes or changes a file that was there before
    and is no temporary file of a video of the batch. *)
Theorem batch_keeps_other_files
    (videos : list (string * extract_outcome * transcribe_outcome))
    (tl : tally) (fs : filesystem) (f : string) (d : data) :
  (forall stem ex tr, In (stem, ex, tr) videos -> f <> temp_name stem) ->
  fs !! f = Some d ->
  snd (main_loop videos tl fs) !! f = Some d.
Proof.
  revert tl fs. induction videos as [|[[stem ex] tr] videos IH]; intros tl fs Hne Hd;
    [exact Hd|].
  cbn [main_loop].
  pose proof (process_video_preserves stem ex tr fs f d
                (Hne stem ex tr (or_introl eq_refl)) Hd) as H.
  destruct (process_video stem ex tr fs) as [r fs']. apply IH; [|exact H].
  intros s e t' Hin. apply (Hne s e t'). right. exact Hin.
Qed.

Lemma batch_keeps_other_files_witness :
  snd (main_loop [("a", Extracted (str "x"), Transcribed (str "my name is Alice"))]
         {| successful := 0; skipped := 0; failed := 0 |}
         {["Alice.mp3" := str "first"]}) !! "Alice.mp3" = Some (str "first").
Proof.
  apply batch_keeps_other_files.
  - intros stem ex tr [[= <- <- <-]|[]]. discriminate.
  - apply lookup_singleton_eq.
Defined.

(** ** transcribe_audio: what is left behind *)






(** X15: when the first attempt raises [ImportError] and the call does not
    return a text (the installation fails, or the second attempt raises),
    nothing is cleaned: the state after the call is the state after the
    set-up, temporary directory included. *)
Theorem failed_retry_cleans_nothing (sc : scenario) (w : world) :
  use_whisper (import_whisper sc) (load_model sc) (transcribe sc) (result_text sc)
  = Raise ImportError ->
  (forall t, fst (transcribe_audio sc w) <> Ret t) ->
  snd (transcribe_audio sc w) = snd (set_up (setup sc) w).
Proof.
  intros Hfirst Hfail. unfold transcribe_audio in *.
  destruct (set_up (setup sc) w) as [tmp w1]. rewrite Hfirst in *. cbn [snd].
  destruct (pip_install sc); [|reflexivity].
  destruct (use_whisper (import_whisper' sc) (load_model' sc) (transcribe' sc)
              (result_text sc)) as [t|e]; [|reflexivity].
  exfalso. apply (Hfail t). reflexivity.
Qed.

Lemma failed_retry_cleans_nothing_witness :
  snd (transcribe_audio (load_fails_after_install "/tmp/tmpx") world0)
  = snd (set_up (setup (load_fails_after_install "/tmp/tmpx")) world0).
Proof.
  apply failed_retry_cleans_nothing.
  - reflexivity.
  - intros t. discriminate.
Defined.

(** ** The cleaning of the name, on any string *)

Lemma hyphen_not_space (c : ascii) : is_hyphen c = true -> isspace c = false.
Proof. by_cases_on_char c. Qed.

Lemma hyphen_is (c : ascii) : is_hyphen c = true -> c = "-"%char.
Proof. unfold is_hyphen. apply bool_decide_eq_true_1. Qed.

Lemma Forall_lstrip (P : ascii -> Prop) (s : text) : Forall P s -> Forall P (lstrip s).
Proof.
  induction 1 as [|c s Hc Hs IH]; [constructor|].
  cbn. destruct (isspace c); [exact IH|]. constructor; assumption.
Qed.

Lemma Forall_strip (P : ascii -> Prop) (s : text) : Forall P s -> Forall P (strip s).
Proof.
  intros H. unfold strip.
  apply Forall_rev, Forall_lstrip, Forall_rev, Forall_lstrip. exact H.
Qed.

Lemma strip_invalid_kept (s : text) :
  Forall (fun c => is_word c || isspace c || is_hyphen c = true) (strip_invalid s).
Proof.
  unfold strip_invalid. apply list.Forall_forall. intros c Hc.
  apply list_elem_of_filter in Hc. tauto.
Qed.

(** What [re.sub(r'[-\s]+', '-', s)] gives on a string of word characters,
    whitespace and hyphens. *)
Lemma collapse_runs_out (b : bool) (s : text) :
  Forall (fun c => is_word c || isspace c || is_hyphen c = true) s ->
  Forall file_char (collapse_runs b s) /\ single_hyphens b (collapse_runs b s) = true.
Proof.
  intros H. revert b. induction H as [|c s Hc _ IH]; intros b; [split; [constructor|reflexivity]|].
  cbn [collapse_runs].
  destruct (is_hyphen c || isspace c) eqn:Hsep.
  - destruct b; [apply IH|].
    destruct (IH true) as [Hall Hsingle]. split.
    + constructor; [reflexivity|exact Hall].
    + cbn [single_hyphens]. change (is_hyphen "-") with true. cbn. exact Hsingle.
  - apply orb_false_iff in Hsep as [Hh Hs].
    rewrite Hh, Hs, !orb_false_r in Hc.
    destruct (IH false) as [Hall Hsingle]. split.
    + constructor; [unfold file_char; rewrite Hc; reflexivity|exact Hall].
    + cbn [single_hyphens]. rewrite Hh. exact Hsingle.
Qed.

Lemma collapse_runs_fixed (b : bool) (s : text) :
  Forall file_char s -> single_hyphens b s = true -> collapse_runs b s = s.
Proof.
  intros H. revert b. induction H as [|c s Hc _ IH]; intros b Hsingle; [reflexivity|].
  cbn [collapse_runs single_hyphens] in *.
  destruct (is_hyphen c) eqn:Hh.
  - apply andb_true_iff in Hsingle as [Hb Hsingle].
    destruct b; [discriminate|]. cbn [orb].
    rewrite (IH true Hsingle), (hyphen_is c Hh). reflexivity.
  - unfold file_char in Hc. rewrite Hh, orb_false_r in Hc.
    rewrite (word_not_space c Hc). cbn [orb].
    rewrite (IH false Hsingle). reflexivity.
Qed.

Lemma file_char_nonspace (s : text) :
  Forall file_char s -> Forall (fun c => isspace c = false) s.
Proof.
  intros H. eapply Forall_impl; [exact H|]. intros c Hc. unfold file_char in Hc.
  apply orb_true_iff in Hc as [Hc|Hc]; [apply word_not_space|apply hyphen_not_space]; exact Hc.
Qed.

Lemma sanitize_out (name s : text) :
  sanitize name = Ret s -> Forall file_char s /\ single_hyphens false s = true.
Proof.
  unfold sanitize. destruct (if nonempty name then split name else [name]) as [|w ws];
    [discriminate|].
  intros [= <-]. apply collapse_runs_out, Forall_strip, strip_invalid_kept.
Qed.

(** X16: whatever the name, the cleaned name that becomes the file name is
    made of word characters and single hyphens only: no whitespace, no
    dot, no path separator, no two hyphens in a row. *)
Theorem sanitized_name_is_a_file_name (name s : text) :
  sanitize name = Ret s ->
  Forall (fun c => is_word c || is_hyphen c = true) s
  /\ single_hyphens false s = true
  /\ ~ In "/"%char s /\ ~ In "."%char s /\ ~ In " "%char s.
Proof.
  intros H. destruct (sanitize_out name s H) as [Hall Hsingle].
  split; [exact Hall|]. split; [exact Hsingle|].
  rewrite List.Forall_forall in Hall.
  repeat split; intros Hin; apply Hall in Hin; vm_compute in Hin; discriminate.
Qed.

Lemma sanitized_name_is_a_file_name_witness :
  Forall (fun c => is_word c || is_hyphen c = true) (str "Anne-Marie")
  /\ single_hyphens false (str "Anne-Marie") = true
  /\ ~ In "/"%char (str "Anne-Marie") /\ ~ In "."%char (str "Anne-Marie")
  /\ ~ In " "%char (str "Anne-Marie").
Proof.
  apply (sanitized_name_is_a_file_name (str "../Anne--Marie!  B.") (str "Anne-Marie")).
  vm_compute. reflexivity.
Defined.

(** X17: cleaning a cleaned name changes nothing. *)
Theorem sanitize_twice (name s : text) :
  sanitize name = Ret s -> sanitize s = Ret s.
Proof.
  intros H. destruct (sanitize_out name s H) as [Hall Hsingle].
  pose proof (file_char_nonspace s Hall) as Hns.
  unfold sanitize.
  assert (Hsplit : (if nonempty s then split s else [s]) = [s]).
  { destruct s as [|c s']; [reflexivity|]. cbn [nonempty].
    apply split_word; [discriminate|exact Hns]. }
  rewrite Hsplit. cbn zeta.
  assert (Hkeep : strip_invalid s = s).
  { unfold strip_invalid. clear -Hall.
    induction Hall as [|c s Hc _ IH]; [reflexivity|].
    rewrite filter_cons_True; [f_equal; exact IH|].
    unfold file_char in Hc. destruct (is_word c), (isspace c), (is_hyphen c);
      try reflexivity; discriminate. }
  rewrite Hkeep, (strip_nonspace s Hns), (collapse_runs_fixed false s Hall Hsingle).
  reflexivity.
Qed.

Lemma sanitize_twice_witness :
  sanitize (str "Anne-Marie") = Ret (str "Anne-Marie").
Proof.
  apply (sanitize_twice (str "../Anne--Marie!  B.")). vm_compute. reflexivity.
Defined.
